(** * oslo.concurrency: named locks and the guarded process executor

    A shallow embedding of [oslo_concurrency/lockutils.py] and
    [oslo_concurrency/processutils.py].  Python code that reads and writes
    the interpreter state (semaphores, file locks, the logger, the operating
    system) is written in a state-and-exception monad; every function keeps
    the name it has in the source. *)

From Stdlib Require Import ZArith QArith Ascii.
From stdpp Require Import base gmap strings list pretty.

Local Open Scope string_scope.
Local Open Scope Z_scope.
Local Open Scope list_scope.

(** ** Python values shared by the two modules *)

(** A Python string object: [bytes] or text.  [subprocess] hands back raw
    bytes, [os.fsdecode] turns them into text. *)
Inductive pystring : Type :=
| Bytes (b : string)
| Text (s : string).

Definition payload (p : pystring) : string :=
  match p with Bytes b => b | Text s => s end.

(** Truth value of a string object: non-empty. *)
Definition truthy (p : pystring) : bool :=
  match payload p with EmptyString => false | String _ _ => true end.

(** The exceptions the two modules raise or let through.  A subclass is the
    constructor of its base class; [OtherException] is any exception that is
    neither a [ProcessExecutionError] nor an [OSError]. *)
Inductive exn : Type :=
| RequiredOptError (opt_name : string)
| InvalidArgumentError (message : string)
| UnknownArgumentError (kwargs : list string)
| NoRootWrapSpecified (message : string)
| ProcessExecutionError (stdout stderr : option pystring)
    (exit_code : option Z) (cmd : option pystring) (description : option string)
| OSError (errno : option Z)
| OtherException (cls : string) (message : string).

(** ** The state-and-exception monad

    A computation either returns, raises, or blocks for ever (a semaphore
    that is never released). *)
Inductive outcome (A : Type) : Type :=
| Return (a : A)
| Raise (e : exn)
| Blocked.
Arguments Return {A} a.
Arguments Raise {A} e.
Arguments Blocked {A}.

Definition M (S A : Type) : Type := S → outcome A * S.

Global Instance M_ret {S} : MRet (M S) := λ A a s, (Return a, s).

Global Instance M_bind {S} : MBind (M S) := λ A B f m s,
  match m s with
  | (Return a, s') => f a s'
  | (Raise e, s') => (Raise e, s')
  | (Blocked, s') => (Blocked, s')
  end.

Definition raise {S A} (e : exn) : M S A := λ s, (Raise e, s).

Definition when {S} (b : bool) (m : M S unit) : M S unit :=
  if b then m else mret tt.

(** [try: m finally: f] *)
Definition try_finally {S A} (m : M S A) (f : M S unit) : M S A := λ s,
  match m s with
  | (Blocked, s') => (Blocked, s')
  | (r, s') =>
      match f s' with
      | (Return _, s'') => (r, s'')
      | (Raise e, s'') => (Raise e, s'')
      | (Blocked, s'') => (Blocked, s'')
      end
  end.

(** [try: m except <caught> as err: h err] *)
Definition try_except {S A} (m : M S A) (caught : exn → bool)
    (h : exn → M S A) : M S A := λ s,
  match m s with
  | (Raise e, s') => if caught e then h e s' else (Raise e, s')
  | r => r
  end.

(** [with cm: body], for a context manager whose [__exit__] does not
    swallow exceptions. *)
Definition with_ {S A} (enter exit : M S unit) (body : M S A) : M S A :=
  enter;; try_finally body exit.

(** ** String helpers *)

(** [s.replace(old, new)] for one-character [old] and [new]. *)
Fixpoint replace (old new : ascii) (s : string) : string :=
  match s with
  | EmptyString => EmptyString
  | String c s' =>
      String (if Ascii.eqb c old then new else c) (replace old new s')
  end.

(** [s.endswith(c)] for a one-character [c]. *)
Fixpoint endswith (s : string) (c : ascii) : bool :=
  match s with
  | EmptyString => false
  | String c' EmptyString => Ascii.eqb c' c
  | String _ s' => endswith s' c
  end.

(** [s.startswith(c)] for a one-character [c]. *)
Definition startswith (s : string) (c : ascii) : bool :=
  match s with
  | EmptyString => false
  | String c' _ => Ascii.eqb c' c
  end.

Definition nonempty (s : string) : bool :=
  match s with EmptyString => false | String _ _ => true end.

(** [a or b] on optional strings: [None] and [''] are false. *)
Definition py_or (a b : option string) : option string :=
  match a with
  | Some s => if nonempty s then a else b
  | None => b
  end.

(** [' '.join(l)] *)
Fixpoint join (sep : string) (l : list string) : string :=
  match l with
  | [] => ""
  | [x] => x
  | x :: l' => x +:+ sep +:+ join sep l'
  end.

(** POSIX: [os.sep] is the slash and [os.path] is [posixpath]. *)
Module os.

Definition sep : ascii := "/"%char.

Module path.

(** [posixpath.join] of two components. *)
Definition join (a b : string) : string :=
  if startswith b sep then b
  else if negb (nonempty a) || endswith a sep then a +:+ b
  else a +:+ String sep b.

End path.
End os.

(** ** lockutils *)
Module lockutils.

(** [CONF.oslo_concurrency] *)
Record oslo_concurrency_opts : Type := {
  opt_disable_process_locking : bool;
  opt_lock_path : option string
}.

(** A [Semaphores] container is named by a number; [_semaphores], the
    module-level default, is number 0. *)
Definition _semaphores : nat := 0%nat.

(** The object a [with lock(...)] block receives. *)
Inductive lock_object : Type :=
| Semaphore (container : nat) (name : string)
| InterProcessLock (path : string).

Inductive event : Type :=
| SemCreate (container : nat) (name : string)
| SemAcquire (container : nat) (name : string)
| SemRelease (container : nat) (name : string)
| ExtAcquire (path : string) (delay : Q)
| ExtRelease (path : string)
| LogDebug (message : string) (lock : string).

(** The interpreter state the locking code reads and writes: the counter of
    every live semaphore, the lock files currently held, the configuration
    and the history of what was done. *)
Record state : Type := {
  counters : gmap (nat * string) Z;
  held_files : gset string;
  CONF : oslo_concurrency_opts;
  trace : list event
}.

Definition record (e : event) (s : state) : state :=
  {| counters := counters s; held_files := held_files s;
     CONF := CONF s; trace := trace s ++ [e] |}.

Definition set_counter (k : nat * string) (v : Z) (s : state) : state :=
  {| counters := <[k := v]> (counters s); held_files := held_files s;
     CONF := CONF s; trace := trace s |}.

Definition set_held (h : gset string) (s : state) : state :=
  {| counters := counters s; held_files := h;
     CONF := CONF s; trace := trace s |}.

Definition emit (e : event) : M state unit := λ s, (Return tt, record e s).

Definition set_semaphore (k : nat * string) (v : Z) : M state unit := λ s,
  (Return tt, set_counter k v s).

Definition set_held_files (h : gset string) : M state unit := λ s,
  (Return tt, set_held h s).

Definition get_state : M state state := λ s, (Return s, s).

Definition block {A} : M state A := λ s, (Blocked, s).

(** [Semaphores.get]: the semaphore of that name, created with counter 1
    ([threading.Semaphore()]) when the container has none. *)
Definition Semaphores_get (self : nat) (name : string) : M state lock_object :=
  s ← get_state;
  match counters s !! (self, name) with
  | Some _ => mret (Semaphore self name)
  | None =>
      set_semaphore (self, name) 1;;
      emit (SemCreate self name);;
      mret (Semaphore self name)
  end.

(** [threading.Semaphore.acquire()]: waits while the counter is zero. *)
Definition sem_acquire (self : nat) (name : string) : M state unit :=
  s ← get_state;
  match counters s !! (self, name) with
  | Some v =>
      if 0 <? v then set_semaphore (self, name) (v - 1);;
                     emit (SemAcquire self name)
      else block
  | None => block
  end.

(** [threading.Semaphore.release()] *)
Definition sem_release (self : nat) (name : string) : M state unit :=
  s ← get_state;
  set_semaphore (self, name) (default 0 (counters s !! (self, name)) + 1);;
  emit (SemRelease self name).

(** [fasteners.InterProcessLock.acquire(delay=delay)], the opaque
    cross-process capability: waits while the file is locked. *)
Definition ext_acquire (path : string) (delay : Q) : M state unit :=
  s ← get_state;
  if decide (path ∈ held_files s) then block
  else set_held_files ({[path]} ∪ held_files s);;
       emit (ExtAcquire path delay).

(** [fasteners.InterProcessLock.release()] *)
Definition ext_release (path : string) : M state unit :=
  s ← get_state;
  set_held_files (held_files s ∖ {[path]});;
  emit (ExtRelease path).

(** [_get_lock_path], as a function of the configured lock path. *)
Definition _get_lock_path (name : string) (lock_file_prefix : option string)
    (lock_path conf_lock_path : option string) : exn + string :=
  let name := replace os.sep "_" name in
  let name :=
    match lock_file_prefix with
    | Some prefix =>
        if nonempty prefix then
          let sep := if endswith prefix "-" then "" else "-" in
          prefix +:+ sep +:+ name
        else name
    | None => name
    end in
  let local_lock_path := py_or lock_path conf_lock_path in
  match local_lock_path with
  | Some dir =>
      if nonempty dir then inr (os.path.join dir name)
      else inl (RequiredOptError "lock_path")
  | None => inl (RequiredOptError "lock_path")
  end.

Definition external_lock (name : string) (lock_file_prefix lock_path : option string)
    : M state lock_object :=
  s ← get_state;
  match _get_lock_path name lock_file_prefix lock_path (opt_lock_path (CONF s)) with
  | inr lock_file_path => mret (InterProcessLock lock_file_path)
  | inl e => raise e
  end.

Definition internal_lock (name : string) (semaphores : option nat)
    : M state lock_object :=
  let semaphores := default _semaphores semaphores in
  Semaphores_get semaphores name.

(** [__enter__] and [__exit__] of the two kinds of lock object; the
    external lock is only ever driven through [acquire] and [release]. *)
Definition enter (l : lock_object) : M state unit :=
  match l with
  | Semaphore c n => sem_acquire c n
  | InterProcessLock p => ext_acquire p (1 # 100)
  end.

Definition exit (l : lock_object) : M state unit :=
  match l with
  | Semaphore c n => sem_release c n
  | InterProcessLock p => ext_release p
  end.

Definition acquire (l : lock_object) (delay : Q) : M state unit :=
  match l with
  | Semaphore c n => sem_acquire c n
  | InterProcessLock p => ext_acquire p delay
  end.

(** [lock], a generator-based context manager: [body] is the block of the
    [with lock(...) as l:] statement, run at the [yield]. *)
Definition lock {A} (name : string) (lock_file_prefix : option string)
    (external : bool) (lock_path : option string) (do_log : bool)
    (semaphores : option nat) (delay : Q)
    (body : lock_object → M state A) : M state A :=
  int_lock ← internal_lock name semaphores;
  with_ (enter int_lock) (exit int_lock)
    (when do_log (emit (LogDebug "Acquired semaphore" name));;
     try_finally
       (s ← get_state;
        if external && negb (opt_disable_process_locking (CONF s)) then
          ext_lock ← external_lock name lock_file_prefix lock_path;
          acquire ext_lock delay;;
          try_finally (body ext_lock) (exit ext_lock)
        else
          body int_lock)
       (when do_log (emit (LogDebug "Releasing semaphore" name)))).


(** *** The lock file path as the specification words it *)

(** The name with every path separator replaced by an underscore. *)
Definition sanitized_name (name : string) : string :=
  replace os.sep "_" name.

(** The prefix part read literally: nothing without a prefix, the prefix
    when it ends in a hyphen, the prefix and one hyphen otherwise. *)
Definition literal_prefix_part (lock_file_prefix : option string) : string :=
  match lock_file_prefix with
  | None => ""
  | Some prefix => if endswith prefix "-" then prefix else prefix +:+ "-"
  end.

(** The same, with the empty prefix counted as no prefix. *)
Definition prefix_part (lock_file_prefix : option string) : string :=
  match lock_file_prefix with
  | None => ""
  | Some "" => ""
  | Some prefix => if endswith prefix "-" then prefix else prefix +:+ "-"
  end.

Definition literal_lock_file_path (lock_dir : string)
    (lock_file_prefix : option string) (name : string) : string :=
  os.path.join lock_dir (literal_prefix_part lock_file_prefix +:+ sanitized_name name).

Definition lock_file_path (lock_dir : string)
    (lock_file_prefix : option string) (name : string) : string :=
  os.path.join lock_dir (prefix_part lock_file_prefix +:+ sanitized_name name).

(** *** The states a call of [lock] goes through *)

Definition key (sems : option nat) (name : string) : nat * string :=
  (default _semaphores sems, name).

(** The semaphore can be taken without waiting. *)
Definition free (s : state) (k : nat * string) : Prop :=
  match counters s !! k with Some v => 0 < v | None => True end.

(** The semaphore is held: taking it waits. *)
Definition held (s : state) (k : nat * string) : Prop :=
  ∃ v, counters s !! k = Some v ∧ v ≤ 0.

Definition log_if (do_log : bool) (message name : string) (s : state) : state :=
  if do_log then record (LogDebug message name) s else s.

(** The state once [Semaphores.get] has returned. *)
Definition got (k : nat * string) (s : state) : state :=
  match counters s !! k with
  | Some _ => s
  | None => record (SemCreate k.1 k.2) (set_counter k 1 s)
  end.

(** The state once the semaphore is taken. *)
Definition entered (k : nat * string) (s : state) : state :=
  record (SemAcquire k.1 k.2)
    (set_counter k (default 0 (counters (got k s) !! k) - 1) (got k s)).

Definition released (k : nat * string) (s : state) : state :=
  record (SemRelease k.1 k.2)
    (set_counter k (default 0 (counters s !! k) + 1) s).

Definition file_locked (path : string) (delay : Q) (s : state) : state :=
  record (ExtAcquire path delay) (set_held ({[path]} ∪ held_files s) s).

Definition file_unlocked (path : string) (s : state) : state :=
  record (ExtRelease path) (set_held (held_files s ∖ {[path]}) s).

Definition no_lock_path (lock_path : option string) (s : state) : Prop :=
  py_or lock_path (opt_lock_path (CONF s)) = None
  ∨ py_or lock_path (opt_lock_path (CONF s)) = Some "".

Definition is_acquisition (e : event) : bool :=
  match e with SemAcquire _ _ | ExtAcquire _ _ => true | _ => false end.

(** The reading under which the call fails before anything is acquired:
    it raises, no acquisition is in the history, and the semaphore is free
    afterwards. *)
Definition fails_before_acquiring {A} name prefix lock_path do_log sems delay
    (body : lock_object → M state A) (s : state) : Prop :=
  ∃ s', lock name prefix true lock_path do_log sems delay body s
          = (Raise (RequiredOptError "lock_path"), s')
        ∧ filter is_acquisition (trace s') = filter is_acquisition (trace s)
        ∧ free s' (key sems name).

Definition unconfigured : state :=
  {| counters := ∅; held_files := ∅;
     CONF := {| opt_disable_process_locking := false; opt_lock_path := None |};
     trace := [] |}.

(** The state in which the block of [with lock(..., external=True)] starts. *)
Definition acquired (k : nat * string) (name : string) (do_log : bool)
    (path : string) (delay : Q) (s : state) : state :=
  file_locked path delay (log_if do_log "Acquired semaphore" name (entered k s)).

(** The state [lock] leaves when the block ended in state [s2]. *)
Definition left_block (k : nat * string) (name : string) (do_log : bool)
    (path : string) (s2 : state) : state :=
  released k (log_if do_log "Releasing semaphore" name (file_unlocked path s2)).

(** *** synchronized *)

(** Turns an exception of [m] into a value, so that the code after a block
    can tell a block that raised from a block that was never entered. *)
Definition reified {A} (m : M state A) : M state (exn + A) := λ s,
  match m s with
  | (Return a, s') => (Return (inr a), s')
  | (Raise e, s') => (Return (inl e), s')
  | (Blocked, s') => (Blocked, s')
  end.

(** The wrapper [inner] that [synchronized(name, ...)] makes of a function:
    [f_name] is [f.__name__] and [f] the call of the function.  [t2] is
    set when the block of [with lock(...)] is entered, so that the last
    record says "held N/A" exactly when the block was never entered; the
    clock readings themselves are left out of the records. *)
Definition synchronized {A} (name : string) (lock_file_prefix : option string)
    (external : bool) (lock_path : option string) (semaphores : option nat)
    (delay : Q) (f_name : string) (f : M state A) : M state A := λ s,
  match
    lock name lock_file_prefix external lock_path false semaphores delay
      (λ _, emit (LogDebug ("Lock acquired by " +:+ f_name) name);;
            reified f) s
  with
  | (Return (inr a), s') =>
      (Return a, record (LogDebug ("Lock released by " +:+ f_name +:+ " :: held") name) s')
  | (Return (inl e), s') =>
      (Raise e, record (LogDebug ("Lock released by " +:+ f_name +:+ " :: held") name) s')
  | (Raise e, s') =>
      (Raise e,
       record (LogDebug ("Lock released by " +:+ f_name +:+ " :: held N/A") name) s')
  | (Blocked, s') => (Blocked, s')
  end.

(** *** remove_external_lock_file *)

(** The locks, the files that exist, and the records logged at level INFO. *)
Record fs_state : Type := {
  locks : state;
  files : gset string;
  info_log : list string
}.

Definition on_locks {A} (m : M state A) : M fs_state A := λ s,
  match m (locks s) with
  | (r, l') => (r, {| locks := l'; files := files s; info_log := info_log s |})
  end.

(** [os.remove]: fails with [ENOENT] when the file does not exist. *)
Definition os_remove (path : string) : M fs_state unit := λ s,
  if decide (path ∈ files s) then
    (Return tt,
     {| locks := locks s; files := files s ∖ {[path]}; info_log := info_log s |})
  else (Raise (OSError (Some 2)), s).

Definition LOG_info (file : string) : M fs_state unit := λ s,
  (Return tt,
   {| locks := locks s; files := files s; info_log := info_log s ++ [file] |}).

Definition is_OSError (e : exn) : bool :=
  match e with OSError _ => true | _ => false end.

Definition remove_external_lock_file (name : string)
    (lock_file_prefix lock_path : option string) (semaphores : option nat)
    : M fs_state unit :=
  int_lock ← on_locks (internal_lock name semaphores);
  with_ (on_locks (enter int_lock)) (on_locks (exit int_lock))
    (s ← (λ s, (Return s, s));
     match _get_lock_path name lock_file_prefix lock_path
             (opt_lock_path (CONF (locks s))) with
     | inl e => raise e
     | inr lock_file_path =>
         try_except (os_remove lock_file_path) is_OSError
           (λ _, LOG_info lock_file_path)
     end).

(** *** States to run the locks in *)

(** Process locking is disabled and no lock directory is configured. *)
Definition locking_disabled : state :=
  {| counters := ∅; held_files := ∅;
     CONF := {| opt_disable_process_locking := true; opt_lock_path := None |};
     trace := [] |}.

(** The lock directory is [/var/lock] and the lock file of [x] is held by
    another process. *)
Definition file_busy : state :=
  {| counters := ∅; held_files := {["/var/lock/x"]};
     CONF := {| opt_disable_process_locking := false;
                opt_lock_path := Some "/var/lock" |};
     trace := [] |}.

(** The lock file of [x] exists and is locked by another process. *)
Definition lock_file_present : fs_state :=
  {| locks := file_busy; files := {["/var/lock/x"]}; info_log := [] |}.

End lockutils.

(** ** processutils *)
Module processutils.

Definition LOG_ALL_ERRORS : Z := 1.
Definition LOG_FINAL_ERROR : Z := 2.

(** [logging.DEBUG] *)
Definition logging_DEBUG : Z := 10.

(** A [check_exit_code] argument: a bool, an int, or a list of ints. *)
Inductive exit_codes : Type :=
| CodeBool (b : bool)
| CodeInt (n : Z)
| CodeList (l : list Z).

(** [preexec_fn] is [_subprocess_setup] (which resets SIGPIPE) or [None]. *)
Inductive preexec : Type := _subprocess_setup.

(** The arguments of [subprocess.Popen]; the three standard streams are
    always pipes. *)
Record popen_args : Type := {
  args : list string;
  close_fds : bool;
  preexec_fn : option preexec;
  popen_shell : bool;
  popen_cwd : option string;
  popen_env : option (list (string * string))
}.

Inductive log_record : Type :=
| Running (cmd : pystring)
| Returned (cmd : pystring) (returncode : Z)
| ErrorDetails (desc : option string) (cmd : option pystring)
    (code : option Z) (stdout stderr : option pystring)
| OSErrorDetails (cmd : pystring) (errno : option Z)
| NotRetrying (cmd : pystring)
| Retrying (cmd : pystring).

Inductive event : Type :=
| Log (level : Z) (r : log_record)
| Spawn (a : popen_args)
| OnExecute
| Communicate (process_input : option pystring)
| StdinClose
| OnCompletion
| Sleep (seconds : Q).

Section with_world.
(** [W] is everything outside the function: the operating system, the
    random generator and whatever the caller's callbacks touch.  [proc] is
    the type of [Popen] objects. *)
Context {W proc : Type}.

(** What the interpreter and the libraries provide. *)
Record runtime : Type := {
  PY3 : bool;
  os_name : string;
  geteuid : option Z;
  shlex_split : string → exn + list string;
  mask_password : pystring → pystring;
  fsdecode : string → string;
  py_repr : pystring → string;
  Popen : popen_args → W → (exn + proc) * W;
  communicate : proc → option pystring → W → (exn + string * string) * W;
  returncode : proc → W → Z;
  randint : Z → Z → W → Z * W
}.

(** A callback receives the [Popen] object; it may raise. *)
Definition callback : Type := proc → W → option exn * W.

(** The keyword arguments: the recognised ones at their documented types
    ([None] when the key is absent), and the names of all the others. *)
Record Kwargs : Type := {
  kw_cwd : option string;
  kw_process_input : option pystring;
  kw_env_variables : option (list (string * string));
  kw_check_exit_code : option exit_codes;
  kw_delay_on_retry : option bool;
  kw_attempts : option Z;
  kw_run_as_root : option bool;
  kw_root_helper : option string;
  kw_shell : option bool;
  kw_loglevel : option Z;
  kw_log_errors : option Z;
  kw_binary : option bool;
  kw_on_execute : option callback;
  kw_on_completion : option callback;
  kw_unknown : list string
}.

Record St : Type := { world : W; trace : list event }.

Definition get : M St St := λ s, (Return s, s).

Definition emit (e : event) : M St unit := λ s,
  (Return tt, {| world := world s; trace := trace s ++ [e] |}).

(** Runs an operation of the world that may raise. *)
Definition perform {A} (op : W → (exn + A) * W) : M St A := λ s,
  match op (world s) with
  | (inr a, w) => (Return a, {| world := w; trace := trace s |})
  | (inl e, w) => (Raise e, {| world := w; trace := trace s |})
  end.

Definition call (f : callback) (obj : proc) : M St unit :=
  perform (λ w, match f obj w with
                | (None, w') => (inr tt, w')
                | (Some e, w') => (inl e, w')
                end).

Variable rt : runtime.

(** A [str] literal or value: text on Python 3, bytes on Python 2. *)
Definition native (s : string) : pystring :=
  if PY3 rt then Text s else Bytes s.

(** [str(c)] of a [str]. *)
Definition py_str (c : string) : string := c.

Definition LOG_log (level : Z) (r : log_record) : M St unit :=
  emit (Log level r).

Definition time_sleep (seconds : Q) : M St unit := emit (Sleep seconds).

Definition subprocess_Popen (a : popen_args) : M St proc :=
  emit (Spawn a);; perform (Popen rt a).

(** The local variables of [execute] when the retry loop starts. *)
Record locals : Type := {
  cmd : list string;
  sanitized_cmd : pystring;
  cwd : option string;
  process_input : option pystring;
  env_variables : option (list (string * string));
  check_exit_code : list Z;
  ignore_exit_code : bool;
  delay_on_retry : bool;
  attempts : Z;
  shell : bool;
  loglevel : Z;
  log_errors : option Z;
  binary : bool;
  on_execute : option callback;
  on_completion : option callback
}.

Definition opt_eqb (a b : option Z) : bool :=
  match a, b with
  | None, None => true
  | Some x, Some y => x =? y
  | _, _ => false
  end.

(** [execute], from the keyword pops to the computation of
    [sanitized_cmd]: everything before the loop. *)
Definition prelude (cmd : list string) (kwargs : Kwargs) : exn + locals :=
  let cwd := kw_cwd kwargs in
  let process_input := kw_process_input kwargs in
  let env_variables := kw_env_variables kwargs in
  let check_exit_code := default (CodeList [0]) (kw_check_exit_code kwargs) in
  let ignore_exit_code := false in
  let delay_on_retry := default true (kw_delay_on_retry kwargs) in
  let attempts := default 1 (kw_attempts kwargs) in
  let run_as_root := default false (kw_run_as_root kwargs) in
  let root_helper := default "" (kw_root_helper kwargs) in
  let shell := default false (kw_shell kwargs) in
  let loglevel := default logging_DEBUG (kw_loglevel kwargs) in
  let log_errors := kw_log_errors kwargs in
  let binary := default false (kw_binary kwargs) in
  let on_execute := kw_on_execute kwargs in
  let on_completion := kw_on_completion kwargs in
  let '(ignore_exit_code, check_exit_code) :=
    match check_exit_code with
    | CodeBool b => (negb b, [0])
    | CodeInt n => (ignore_exit_code, [n])
    | CodeList l => (ignore_exit_code, l)
    end in
  match kw_unknown kwargs with
  | _ :: _ => inl (UnknownArgumentError (kw_unknown kwargs))
  | [] =>
  if negb (existsb (opt_eqb log_errors)
             [None; Some LOG_ALL_ERRORS; Some LOG_FINAL_ERROR]) then
    inl (InvalidArgumentError
           ("Got invalid arg log_errors: " +:+ pretty (default 0 log_errors)))
  else
  let cmd' :=
    if run_as_root
       && match geteuid rt with Some uid => negb (uid =? 0) | None => false end
    then
      if negb (nonempty root_helper) then
        inl (NoRootWrapSpecified
               "Command requested root, but did not specify a root helper.")
      else if shell then
        match cmd with
        | cmd0 :: rest => inr (join " " [root_helper; cmd0] :: rest)
        | [] => inl (OtherException "IndexError" "tuple index out of range")
        end
      else
        match shlex_split rt root_helper with
        | inr tokens => inr (tokens ++ cmd)
        | inl e => inl e
        end
    else inr cmd in
  match cmd' with
  | inl e => inl e
  | inr cmd =>
      let cmd := map py_str cmd in
      let sanitized_cmd := mask_password rt (native (join " " cmd)) in
      inr {| cmd := cmd; sanitized_cmd := sanitized_cmd; cwd := cwd;
             process_input := process_input; env_variables := env_variables;
             check_exit_code := check_exit_code;
             ignore_exit_code := ignore_exit_code;
             delay_on_retry := delay_on_retry; attempts := attempts;
             shell := shell; loglevel := loglevel; log_errors := log_errors;
             binary := binary; on_execute := on_execute;
             on_completion := on_completion |}
  end
  end.

(** The arguments every attempt passes to [Popen]. *)
Definition spawn_args (l : locals) : popen_args :=
  let '(preexec_fn, close_fds) :=
    if String.eqb (os_name rt) "nt" then (None, false)
    else (Some _subprocess_setup, true) in
  {| args := cmd l; close_fds := close_fds; preexec_fn := preexec_fn;
     popen_shell := shell l; popen_cwd := cwd l;
     popen_env := env_variables l |}.

(** The body of the [try] statement: one attempt.  It ends in [return] or
    in an exception.  [communicate] gives a pair of byte strings, so
    [result is not None] holds; the elapsed time of the log record is left
    out. *)
Definition attempt (l : locals) : M St (pystring * pystring) :=
  LOG_log (loglevel l) (Running (sanitized_cmd l));;
  obj ← subprocess_Popen (spawn_args l);
  match on_execute l with
  | Some f => emit OnExecute;; call f obj
  | None => mret tt
  end;;
  emit (Communicate (process_input l));;
  result ← perform (communicate rt obj (process_input l));
  emit StdinClose;;
  s ← get;
  let _returncode := returncode rt obj (world s) in
  LOG_log (loglevel l) (Returned (sanitized_cmd l) _returncode);;
  match on_completion l with
  | Some f => emit OnCompletion;; call f obj
  | None => mret tt
  end;;
  if negb (ignore_exit_code l)
     && negb (existsb (Z.eqb _returncode) (check_exit_code l)) then
    let '(stdout, stderr) := result in
    let stdout := if PY3 rt then Text (fsdecode rt stdout) else Bytes stdout in
    let stderr := if PY3 rt then Text (fsdecode rt stderr) else Bytes stderr in
    let sanitized_stdout := mask_password rt stdout in
    let sanitized_stderr := mask_password rt stderr in
    raise (ProcessExecutionError (Some sanitized_stdout) (Some sanitized_stderr)
             (Some _returncode) (Some (sanitized_cmd l)) None)
  else if PY3 rt && negb (binary l) then
    let '(stdout, stderr) := result in
    let stdout := fsdecode rt stdout in
    let stderr := fsdecode rt stderr in
    mret (Text stdout, Text stderr)
  else
    let '(stdout, stderr) := result in
    mret (Bytes stdout, Bytes stderr).

(** [except (ProcessExecutionError, OSError)] *)
Definition caught (e : exn) : bool :=
  match e with
  | ProcessExecutionError _ _ _ _ _ | OSError _ => true
  | _ => false
  end.

(** [err.errno] *)
Definition err_errno (err : exn) : option Z :=
  match err with OSError errno => errno | _ => None end.

(** How a pass through the loop body ends without an exception: by
    [return], or by reaching the end of the body. *)
Inductive flow : Type :=
| Returns (result : pystring * pystring)
| Continues.

(** The [except] block; [attempts] is the number of attempts left. *)
Definition handler (l : locals) (attempts : nat) (err : exn) : M St flow :=
  when (opt_eqb (log_errors l) (Some LOG_ALL_ERRORS)
        || (opt_eqb (log_errors l) (Some LOG_FINAL_ERROR)
            && Nat.eqb attempts 0))
    (match err with
     | ProcessExecutionError stdout stderr exit_code cmd description =>
         LOG_log (loglevel l)
           (ErrorDetails description cmd exit_code stdout stderr)
     | _ =>
         LOG_log (loglevel l) (OSErrorDetails (sanitized_cmd l) (err_errno err))
     end);;
  if Nat.eqb attempts 0 then
    LOG_log (loglevel l) (NotRetrying (sanitized_cmd l));;
    raise err
  else
    LOG_log (loglevel l) (Retrying (sanitized_cmd l));;
    when (delay_on_retry l)
      (r ← perform (λ w, let '(r, w') := randint rt 20 200 w in (inr r, w'));
       time_sleep (Qmake r 100));;
    mret Continues.

(** One pass through the body of the [while] loop, after
    [attempts -= 1]. *)
Definition iteration (l : locals) (attempts : nat) : M St flow :=
  try_finally
    (try_except (result ← attempt l; mret (Returns result))
       caught (handler l attempts))
    (time_sleep 0).

(** [while attempts > 0]: the counter is a natural number here, so that
    [attempts > 0] is the successor case and [not attempts] is zero. *)
Fixpoint retry_loop (l : locals) (attempts : nat)
    : M St (option (pystring * pystring)) :=
  match attempts with
  | O => mret None
  | S attempts =>
      r ← iteration l attempts;
      match r with
      | Returns result => mret (Some result)
      | Continues => retry_loop l attempts
      end
  end.

(** [execute]: the positional arguments are the command.  The result is
    [None] when the loop body never runs. *)
Definition execute (cmd : list string) (kwargs : Kwargs)
    : M St (option (pystring * pystring)) :=
  match prelude cmd kwargs with
  | inl e => raise e
  | inr l => retry_loop l (Z.to_nat (attempts l))
  end.


(** [ProcessExecutionError.__init__] builds the message that
    [six.text_type(exn)] gives back. *)
Definition newline : string := String (ascii_of_nat 10) "".

Definition message (stdout stderr : option pystring) (exit_code : option Z)
    (cmd : option pystring) (description : option string) : string :=
  let description :=
    default "Unexpected error while running command." description in
  let exit_code :=
    match exit_code with Some n => pretty n | None => "-" end in
  description +:+ newline
  +:+ "Command: " +:+ from_option payload "None" cmd +:+ newline
  +:+ "Exit code: " +:+ exit_code +:+ newline
  +:+ "Stdout: " +:+ from_option (py_repr rt) "None" stdout +:+ newline
  +:+ "Stderr: " +:+ from_option (py_repr rt) "None" stderr.

Definition is_ProcessExecutionError (e : exn) : bool :=
  match e with ProcessExecutionError _ _ _ _ _ => true | _ => false end.

(** [trycmd]; [discard_warnings] is popped off the keyword arguments, the
    rest goes to [execute]. *)
Definition trycmd (args : list string) (discard_warnings : option bool)
    (kwargs : Kwargs) : M St (pystring * pystring) :=
  let discard_warnings := default false discard_warnings in
  '(out, err, failed) ←
    try_except
      (r ← execute args kwargs;
       match r with
       | Some (out, err) => mret (out, err, false)
       | None =>
           raise (OtherException "TypeError"
                    "'NoneType' object is not iterable")
       end)
      is_ProcessExecutionError
      (λ exn,
         match exn with
         | ProcessExecutionError stdout stderr exit_code cmd description =>
             let text := message stdout stderr exit_code cmd description in
             mret (native "", Text text, true)
         | _ => raise exn
         end);
  let err :=
    if negb failed && discard_warnings && truthy err then native "" else err in
  mret (out, err).

(** *** Words for the statements about [execute] *)

Implicit Types (l : locals) (s : St) (e : exn).

(** The number of calls of [subprocess.Popen] in a history. *)
Fixpoint spawns (t : list event) : nat :=
  match t with
  | [] => 0
  | Spawn _ :: t => S (spawns t)
  | _ :: t => spawns t
  end.

(** A record written by the [except] block. *)
Definition is_failure_log (e : event) : bool :=
  match e with
  | Log _ (ErrorDetails _ _ _ _ _) | Log _ (OSErrorDetails _ _)
  | Log _ (NotRetrying _) | Log _ (Retrying _) => true
  | _ => false
  end.

Definition slept (s : St) : St :=
  {| world := world s; trace := trace s ++ [Sleep 0] |}.

(** The attempt started in [s] fails with an exception the loop catches. *)
Definition fails l s : Prop :=
  ∃ e s', attempt l s = (Raise e, s') ∧ caught e = true.

(** The state in which attempt number [i] (from 0) starts, when the loop
    is entered in [s] with [n] attempts left. *)
Fixpoint state_before l (n i : nat) (s : St) {struct i} : St :=
  match i with
  | O => s
  | S i =>
      match n with
      | O => s
      | S n => state_before l n i (iteration l n s).2
      end
  end.

Definition call_opt (f : option callback) (obj : proc) (w : W)
    : option exn * W :=
  match f with Some f => f obj w | None => (None, w) end.

(** The attempt started in [s] runs to the end of the process: [Popen]
    and [communicate] succeed with output [(out, err)], the exit code is
    [rc] and no callback raises; [s'] is the state when the exit code is
    checked. *)
Definition completes l s (out err : string) (rc : Z) (s' : St) : Prop :=
  ∃ p w1 w2 w3 w4,
    Popen rt (spawn_args l) (world s) = (inr p, w1)
    ∧ call_opt (on_execute l) p w1 = (None, w2)
    ∧ communicate rt p (process_input l) w2 = (inr (out, err), w3)
    ∧ returncode rt p w3 = rc
    ∧ call_opt (on_completion l) p w3 = (None, w4)
    ∧ s' = {| world := w4;
              trace := trace s
                ++ [Log (loglevel l) (Running (sanitized_cmd l));
                    Spawn (spawn_args l)]
                ++ match on_execute l with Some _ => [OnExecute] | None => [] end
                ++ [Communicate (process_input l); StdinClose;
                    Log (loglevel l) (Returned (sanitized_cmd l) rc)]
                ++ match on_completion l with Some _ => [OnCompletion] | None => [] end |}.

(** The accepted exit codes, as the specification words them. *)
Definition accepts (c : option exit_codes) (rc : Z) : Prop :=
  match c with
  | None => rc = 0
  | Some (CodeBool true) => rc = 0
  | Some (CodeBool false) => True
  | Some (CodeInt n) => rc = n
  | Some (CodeList codes) => rc ∈ codes
  end.

(** The output of a process as [execute] hands it on. *)
Definition decoded (raw : string) : pystring :=
  if PY3 rt then Text (fsdecode rt raw) else Bytes raw.

Definition returned l (out err : string) : pystring * pystring :=
  if PY3 rt && negb (binary l) then
    (Text (fsdecode rt out), Text (fsdecode rt err))
  else (Bytes out, Bytes err).

(** The returned output read as depending on [binary] alone: decoded unless
    [binary] is true. *)
Definition returned_as_worded (binary : bool) (out err : string)
    : pystring * pystring :=
  if binary then (Bytes out, Bytes err)
  else (Text (fsdecode rt out), Text (fsdecode rt err)).

Definition failure l (out err : string) (rc : Z) : exn :=
  ProcessExecutionError (Some (mask_password rt (decoded out)))
    (Some (mask_password rt (decoded err))) (Some rc)
    (Some (sanitized_cmd l)) None.

Definition valid_log_errors (v : option Z) : Prop :=
  v = None ∨ v = Some LOG_ALL_ERRORS ∨ v = Some LOG_FINAL_ERROR.

Definition spawned_as l (ev : event) : Prop :=
  ∀ a, ev = Spawn a → a = spawn_args l.

(** *** The history of the retry loop *)

(** The sum of the weights of the events of a history. *)
Fixpoint weigh (wt : event → nat) (t : list event) : nat :=
  match t with
  | [] => 0
  | ev :: t => (wt ev + weigh wt t)%nat
  end.

(** An event of the [try] block: the two records it logs, the call of
    [Popen], the callbacks, [communicate] and the closing of stdin. *)
Definition from_attempt (ev : event) : bool :=
  match ev with
  | Log _ (Running _) | Log _ (Returned _ _) | Spawn _ | OnExecute
  | Communicate _ | StdinClose | OnCompletion => true
  | _ => false
  end.

(** Whether the [except] block logs the details of the error, with
    [attempts] attempts left. *)
Definition logs_details l (attempts : nat) : bool :=
  opt_eqb (log_errors l) (Some LOG_ALL_ERRORS)
  || (opt_eqb (log_errors l) (Some LOG_FINAL_ERROR) && Nat.eqb attempts 0).

(** The events of the [except] block, in a world [w]. *)
Definition handler_events l (attempts : nat) e (w : W) : list event :=
  (if logs_details l attempts then
     [Log (loglevel l)
        match e with
        | ProcessExecutionError stdout stderr exit_code cmd description =>
            ErrorDetails description cmd exit_code stdout stderr
        | _ => OSErrorDetails (sanitized_cmd l) (err_errno e)
        end]
   else [])
  ++ match attempts with
     | O => [Log (loglevel l) (NotRetrying (sanitized_cmd l))]
     | S _ =>
         Log (loglevel l) (Retrying (sanitized_cmd l))
         :: if delay_on_retry l
            then [Sleep (Qmake (randint rt 20 200 w).1 100)] else []
     end.

(** 1 for a record with the details of an error, 0 otherwise. *)
Definition detail_weight (ev : event) : nat :=
  match ev with
  | Log _ (ErrorDetails _ _ _ _ _) | Log _ (OSErrorDetails _ _) => 1
  | _ => 0
  end.

(** 1 for a call of [time.sleep], 0 otherwise. *)
Definition sleep_weight (ev : event) : nat :=
  match ev with Sleep _ => 1 | _ => 0 end.

(** The command of a record is [sanitized_cmd]; a record with the details
    of a [ProcessExecutionError] shows the command the error carries. *)
Definition logs_masked l (ev : event) : Prop :=
  match ev with
  | Log _ (Running c) | Log _ (Returned c _) | Log _ (OSErrorDetails c _)
  | Log _ (NotRetrying c) | Log _ (Retrying c) =>
      c = sanitized_cmd l
  | _ => True
  end.

(** The time slept is zero or between 0.2 and 2 seconds. *)
Definition bounded_sleep (ev : event) : Prop :=
  match ev with
  | Sleep q => (q == 0 ∨ (2 # 10 <= q ∧ q <= 2))%Q
  | _ => True
  end.

End with_world.

(** *** ssh_execute *)

Inductive ssh_event : Type :=
| SshRunning (cmd : pystring)
| SshExecCommand (cmd : string)
| SshResult (exit_status : Z).

Section with_ssh.
(** [chan] is the type of what [ssh.exec_command] gives back: the three
    streams and the channel of the command. *)
Context {W proc chan : Type}.

(** The [ssh] client object. *)
Record ssh_client : Type := {
  exec_command : string → W → (exn + chan) * W;
  stdout_read : chan → W → (exn + string) * W;
  stderr_read : chan → W → (exn + string) * W;
  stdin_close : chan → W → option exn * W;
  recv_exit_status : chan → W → (exn + Z) * W
}.

(** [os.fsencode], and [unicode.encode()] of Python 2, which may raise. *)
Record encoders : Type := {
  fsencode : string → string;
  unicode_encode : string → exn + string
}.

Record SshSt : Type := { ssh_world : W; ssh_trace : list ssh_event }.

Definition ssh_emit (e : ssh_event) : M SshSt unit := λ s,
  (Return tt, {| ssh_world := ssh_world s; ssh_trace := ssh_trace s ++ [e] |}).

Definition ssh_perform {A} (op : W → (exn + A) * W) : M SshSt A := λ s,
  match op (ssh_world s) with
  | (inr a, w) => (Return a, {| ssh_world := w; ssh_trace := ssh_trace s |})
  | (inl e, w) => (Raise e, {| ssh_world := w; ssh_trace := ssh_trace s |})
  end.

Variable rt : @runtime W proc.
Variable enc : encoders.

(** Truth value of [addl_env]: a non-empty dictionary. *)
Definition env_truthy (addl_env : option (list (string * string))) : bool :=
  match addl_env with Some (_ :: _) => true | _ => false end.

(** Truth value of [process_input]: a non-empty string. *)
Definition input_truthy (process_input : option pystring) : bool :=
  match process_input with Some p => truthy p | None => false end.

(** [stdout.encode()] when [stdout] is a [unicode] object (Python 2). *)
Definition encode_if_unicode (p : pystring) : exn + pystring :=
  match p with
  | Text s =>
      match unicode_encode enc s with
      | inr b => inr (Bytes b)
      | inl e => inl e
      end
  | Bytes b => inr (Bytes b)
  end.

Definition ssh_execute (ssh : ssh_client) (cmd : string)
    (process_input : option pystring)
    (addl_env : option (list (string * string)))
    (check_exit_code binary : bool) : M SshSt (pystring * pystring) :=
  let sanitized_cmd := mask_password rt (native rt cmd) in
  ssh_emit (SshRunning sanitized_cmd);;
  if env_truthy addl_env then
    raise (InvalidArgumentError "Environment not supported over SSH")
  else if input_truthy process_input then
    raise (InvalidArgumentError "process_input not supported over SSH")
  else
  ssh_emit (SshExecCommand cmd);;
  streams ← ssh_perform (exec_command ssh cmd);
  stdout ← ssh_perform (stdout_read ssh streams);
  stderr ← ssh_perform (stderr_read ssh streams);
  ssh_perform (λ w, match stdin_close ssh streams w with
                    | (None, w') => (inr tt, w')
                    | (Some e, w') => (inl e, w')
                    end);;
  exit_status ← ssh_perform (recv_exit_status ssh streams);
  let stdout := if PY3 rt then Text (fsdecode rt stdout) else Bytes stdout in
  let stderr := if PY3 rt then Text (fsdecode rt stderr) else Bytes stderr in
  let stdout := mask_password rt stdout in
  let stderr := mask_password rt stderr in
  (if negb (exit_status =? -1) then
     ssh_emit (SshResult exit_status);;
     if check_exit_code && negb (exit_status =? 0) then
       raise (ProcessExecutionError (Some stdout) (Some stderr)
                (Some exit_status) (Some sanitized_cmd) None)
     else mret tt
   else mret tt);;
  if binary then
    if negb (PY3 rt) then
      match encode_if_unicode stdout with
      | inl e => raise e
      | inr stdout =>
          match encode_if_unicode stderr with
          | inl e => raise e
          | inr stderr => mret (stdout, stderr)
          end
      end
    else
      mret (Bytes (fsencode enc (payload stdout)),
            Bytes (fsencode enc (payload stderr)))
  else mret (stdout, stderr).

(** The command runs over [ssh] with output [(out, err)] and exit status
    [status], no operation of the client raising. *)
Definition ssh_runs (ssh : ssh_client) (cmd : string) (s : SshSt)
    (out err : string) (status : Z) (w' : W) : Prop :=
  ∃ ch w1 w2 w3 w4,
    exec_command ssh cmd (ssh_world s) = (inr ch, w1)
    ∧ stdout_read ssh ch w1 = (inr out, w2)
    ∧ stderr_read ssh ch w2 = (inr err, w3)
    ∧ stdin_close ssh ch w3 = (None, w4)
    ∧ recv_exit_status ssh ch w4 = (inr status, w').

(** The output of the command, decoded on Python 3 and masked. *)
Definition ssh_masked (raw : string) : pystring :=
  mask_password rt (if PY3 rt then Text (fsdecode rt raw) else Bytes raw).

(** The state after a run: the masked command was logged, the command
    executed, and the exit status logged unless it is -1. *)
Definition ssh_ran (cmd : string) (status : Z) (w' : W) (s : SshSt) : SshSt :=
  {| ssh_world := w';
     ssh_trace := ssh_trace s
       ++ [SshRunning (mask_password rt (native rt cmd)); SshExecCommand cmd]
       ++ (if status =? -1 then [] else [SshResult status]) |}.

(** The state when an argument was rejected: only the masked command was
    logged. *)
Definition ssh_rejected (cmd : string) (s : SshSt) : SshSt :=
  {| ssh_world := ssh_world s;
     ssh_trace := ssh_trace s ++ [SshRunning (mask_password rt (native rt cmd))] |}.

End with_ssh.

End processutils.

(** ** A small host to run the model on

    Processes are decided by their argument vector; the world counts the
    processes started. *)
Module example_host.
Import processutils.

Definition proc : Type := string * string * Z.

(** What a command prints on its two streams and how it exits, on a host
    that has started [started] processes; [flaky] fails until two processes
    have been started. *)
Fixpoint programs (started : nat) (argv : list string) : option proc :=
  match argv with
  | [] => None
  | prog :: rest =>
      if String.eqb prog "sudo" then programs started rest
      else if String.eqb prog "true" then Some ("", "", 0)
      else if String.eqb prog "false" then Some ("", "", 1)
      else if String.eqb prog "flaky" then
        Some ("", "", if (started <? 2)%nat then 1 else 0)
      else if String.eqb prog "echo" then Some (join " " rest +:+ newline, "", 0)
      else if String.eqb prog "ls" then
        Some ("", "ls: cannot access " +:+ join " " rest +:+ newline, 2)
      else if String.eqb prog "dd" then
        Some ("", "0+0 records in" +:+ newline, 0)
      else None
  end.

(** Stars out what follows an equals sign, up to the next space. *)
Fixpoint mask (masking : bool) (s : string) : string :=
  match s with
  | EmptyString => EmptyString
  | String c s' =>
      if Ascii.eqb c " " || Ascii.eqb c (ascii_of_nat 10) then
        String c (mask false s')
      else if masking then String "*" (mask true s')
      else String c (mask (Ascii.eqb c "=") s')
  end.

Definition mask_pystring (p : pystring) : pystring :=
  match p with
  | Bytes b => Bytes (mask false b)
  | Text s => Text (mask false s)
  end.

Definition host (py3 : bool) (euid : option Z) : @runtime nat proc :=
  {| PY3 := py3;
     os_name := "posix";
     geteuid := euid;
     shlex_split := λ s, inr (String.words s);
     mask_password := mask_pystring;
     fsdecode := λ b, b;
     py_repr := λ p, "'" +:+ payload p +:+ "'";
     Popen := λ a w,
       match programs w (if popen_shell a then String.words (join " " (args a))
                         else args a) with
       | Some p => (inr p, S w)
       | None => (inl (OSError (Some 2)), w)
       end;
     communicate := λ p _ w, (inr (p.1.1, p.1.2), w);
     returncode := λ p _, p.2;
     randint := λ lo _ w, (lo, w) |}.

Definition no_kwargs : @Kwargs nat proc :=
  {| kw_cwd := None; kw_process_input := None; kw_env_variables := None;
     kw_check_exit_code := None; kw_delay_on_retry := None;
     kw_attempts := None; kw_run_as_root := None; kw_root_helper := None;
     kw_shell := None; kw_loglevel := None; kw_log_errors := None;
     kw_binary := None; kw_on_execute := None; kw_on_completion := None;
     kw_unknown := [] |}.

(** One keyword argument of a call, and the keyword arguments of a call
    written as a list of them. *)
Inductive kwarg : Type :=
| check_exit_code_is (c : exit_codes)
| delay_on_retry_is (b : bool)
| attempts_is (n : Z)
| run_as_root_is (b : bool)
| root_helper_is (h : string)
| shell_is (b : bool)
| log_errors_is (v : Z)
| binary_is (b : bool)
| on_execute_is (f : @callback nat proc)
| on_completion_is (f : @callback nat proc)
| unknown_is (name : string).

Definition set_kwarg (a : kwarg) (k : @Kwargs nat proc) : @Kwargs nat proc :=
  let 'Build_Kwargs cwd inp env cec dor att rar rh sh ll le bin oe oc un := k in
  match a with
  | check_exit_code_is c =>
      Build_Kwargs cwd inp env (Some c) dor att rar rh sh ll le bin oe oc un
  | delay_on_retry_is b =>
      Build_Kwargs cwd inp env cec (Some b) att rar rh sh ll le bin oe oc un
  | attempts_is n =>
      Build_Kwargs cwd inp env cec dor (Some n) rar rh sh ll le bin oe oc un
  | run_as_root_is b =>
      Build_Kwargs cwd inp env cec dor att (Some b) rh sh ll le bin oe oc un
  | root_helper_is h =>
      Build_Kwargs cwd inp env cec dor att rar (Some h) sh ll le bin oe oc un
  | shell_is b =>
      Build_Kwargs cwd inp env cec dor att rar rh (Some b) ll le bin oe oc un
  | log_errors_is v =>
      Build_Kwargs cwd inp env cec dor att rar rh sh ll (Some v) bin oe oc un
  | binary_is b =>
      Build_Kwargs cwd inp env cec dor att rar rh sh ll le (Some b) oe oc un
  | on_execute_is f =>
      Build_Kwargs cwd inp env cec dor att rar rh sh ll le bin (Some f) oc un
  | on_completion_is f =>
      Build_Kwargs cwd inp env cec dor att rar rh sh ll le bin oe (Some f) un
  | unknown_is name =>
      Build_Kwargs cwd inp env cec dor att rar rh sh ll le bin oe oc (name :: un)
  end.

Definition kwargs (l : list kwarg) : @Kwargs nat proc :=
  foldr set_kwarg no_kwargs l.

(** A callback that raises [ValueError]. *)
Definition raising_callback : @callback nat proc :=
  λ _ w, (Some (OtherException "ValueError" "boom"), w).

Definition boot : @St nat := {| world := 0%nat; trace := [] |}.

(** Python 3, run as an ordinary user. *)
Definition py3 : @runtime nat proc := host true (Some 1000).

(** Python 2, run as an ordinary user. *)
Definition py2 : @runtime nat proc := host false (Some 1000).

(** The same host behind an SSH client: the command line is split into
    words, and a command that the host does not have ends with status 127. *)
Definition ssh_host : @ssh_client nat proc :=
  {| exec_command := λ c w,
       (inr (default ("", "sh: command not found" +:+ newline, 127)
               (programs w (String.words c))), S w);
     stdout_read := λ p w, (inr p.1.1, w);
     stderr_read := λ p w, (inr p.1.2, w);
     stdin_close := λ _ w, (None, w);
     recv_exit_status := λ p w, (inr p.2, w) |}.

Definition host_encoders : encoders :=
  {| fsencode := λ s, s; unicode_encode := λ s, inr s |}.

Definition ssh_boot : @SshSt nat := {| ssh_world := 0%nat; ssh_trace := [] |}.

(** Whether a quotation opened by ['] is left open at the end of [s]. *)
Fixpoint open_quotation (opened : bool) (s : string) : bool :=
  match s with
  | EmptyString => opened
  | String c s' => open_quotation (if Ascii.eqb c "'" then negb opened else opened) s'
  end.

(** Python 3 for an ordinary user, with a [shlex.split] that raises
    [ValueError] on a quotation left open. *)
Definition py3_quoting : @runtime nat proc :=
  {| PY3 := PY3 py3;
     os_name := os_name py3;
     geteuid := geteuid py3;
     shlex_split := λ s,
       if open_quotation false s
       then inl (OtherException "ValueError" "No closing quotation")
       else inr (String.words s);
     mask_password := mask_password py3;
     fsdecode := fsdecode py3;
     py_repr := py_repr py3;
     Popen := Popen py3;
     communicate := communicate py3;
     returncode := returncode py3;
     randint := randint py3 |}.

(** Python 3, run as root. *)
Definition py3_root : @runtime nat proc := host true (Some 0).

End example_host.

(** ** Facts about the string helpers *)

Lemma string_app_cons (x : ascii) (a b : string) :
  String x a +:+ b = String x (a +:+ b).
Proof. reflexivity. Qed.

Lemma string_app_assoc (a b c : string) : (a +:+ b) +:+ c = a +:+ (b +:+ c).
Proof.
  induction a as [|x a IH]; [reflexivity|].
  rewrite !string_app_cons. by f_equal.
Qed.

Lemma string_app_empty_r (a : string) : a +:+ "" = a.
Proof.
  induction a as [|x a IH]; [reflexivity|].
  rewrite string_app_cons. by f_equal.
Qed.

(** [replace] changes exactly the occurrences of [old], in place. *)
Lemma replace_get (old new : ascii) (s : string) (i : nat) :
  String.get i (replace old new s)
  = (λ c, if Ascii.eqb c old then new else c) <$> String.get i s.
Proof.
  revert i. induction s as [|c s IH]; intros [|i]; simpl; try reflexivity.
  apply IH.
Qed.

Lemma replace_length (old new : ascii) (s : string) :
  String.length (replace old new s) = String.length s.
Proof. induction s as [|c s IH]; simpl; [reflexivity | by rewrite IH]. Qed.

(** Once replaced by another character, [old] occurs nowhere. *)
Lemma replace_absent (old new : ascii) (s : string) (i : nat) :
  old ≠ new → String.get i (replace old new s) ≠ Some old.
Proof.
  intros Hne. rewrite replace_get.
  destruct (String.get i s) as [c|]; simpl; [|discriminate].
  destruct (Ascii.eqb c old) eqn:E; intros [= H].
  - by apply Hne.
  - apply Ascii.eqb_neq in E. by apply E.
Qed.

(** ** Running the monad *)

Section run.
Context {S A B : Type}.
Implicit Types (m : M S A) (f : A → M S B) (s : S).

Lemma bind_return m f s a s' :
  m s = (Return a, s') → (m ≫= f) s = f a s'.
Proof. intros H. unfold mbind, M_bind. by rewrite H. Qed.

Lemma bind_raise m f s e s' :
  m s = (Raise e, s') → (m ≫= f) s = (Raise e, s').
Proof. intros H. unfold mbind, M_bind. by rewrite H. Qed.

Lemma bind_blocked m f s s' :
  m s = (Blocked, s') → (m ≫= f) s = (Blocked, s').
Proof. intros H. unfold mbind, M_bind. by rewrite H. Qed.

Lemma try_finally_return m (fin : M S unit) s r s' s'' :
  m s = (r, s') → r ≠ Blocked → fin s' = (Return tt, s'') →
  try_finally m fin s = (r, s'').
Proof.
  intros Hm Hr Hf. unfold try_finally. rewrite Hm.
  destruct r; [| |done]; by rewrite Hf.
Qed.

Lemma try_finally_blocked m (fin : M S unit) s s' :
  m s = (Blocked, s') → try_finally m fin s = (Blocked, s').
Proof. intros Hm. unfold try_finally. by rewrite Hm. Qed.
End run.

(** ** Theorems about lockutils *)
Module lockutils_facts.
Import lockutils.

(** C2, as worded, fails for the empty prefix: [_get_lock_path('lock', '',
    '/var/lock')] skips the prefix ([if lock_file_prefix:] is false for
    ['']) and gives ['/var/lock/lock'], where the literal reading appends a
    hyphen to the empty prefix and gives ['/var/lock/-lock']. *)
Lemma get_lock_path_empty_prefix_counterexample :
  _get_lock_path "lock" (Some "") (Some "/var/lock") None
    = inr "/var/lock/lock"
  ∧ literal_lock_file_path "/var/lock" (Some "") "lock" = "/var/lock/-lock"
  ∧ _get_lock_path "lock" (Some "") (Some "/var/lock") None
    ≠ inr (literal_lock_file_path "/var/lock" (Some "") "lock").
Proof. split; [|split]; [reflexivity | reflexivity | discriminate]. Qed.

(** C2 (amended): for every name, prefix and non-empty resolved lock
    directory (the [lock_path] argument, or else the configured one), the
    lock file path is [join(lockDir, prefixPart + sanitizedName)]:
    [sanitizedName] is the name with every path separator replaced by ['_']
    and no other character changed, and [prefixPart] is empty when no prefix
    or the empty prefix is given, the prefix itself when it ends in ['-'],
    and the prefix followed by one ['-'] otherwise. *)
Theorem get_lock_path_derivation
    (name : string) (lock_file_prefix lock_path conf_lock_path : option string)
    (lock_dir : string) :
  py_or lock_path conf_lock_path = Some lock_dir →
  lock_dir ≠ "" →
  _get_lock_path name lock_file_prefix lock_path conf_lock_path
    = inr (lock_file_path lock_dir lock_file_prefix name)
  ∧ (lock_file_prefix = None ∨ lock_file_prefix = Some "" →
       prefix_part lock_file_prefix = "")
  ∧ (∀ prefix, lock_file_prefix = Some prefix → prefix ≠ "" →
       prefix_part lock_file_prefix
       = if endswith prefix "-" then prefix else prefix +:+ "-")
  ∧ String.length (sanitized_name name) = String.length name
  ∧ (∀ i, String.get i (sanitized_name name)
          = (λ c, if Ascii.eqb c os.sep then "_"%char else c)
              <$> String.get i name)
  ∧ (∀ i, String.get i (sanitized_name name) ≠ Some os.sep).
Proof.
  intros Hdir Hne. split; [|split; [|split; [|split; [|split]]]].
  - unfold _get_lock_path, lock_file_path, prefix_part, sanitized_name.
    rewrite Hdir. destruct lock_dir as [|c d]; [done|]. simpl nonempty. cbv iota.
    f_equal. f_equal.
    destruct lock_file_prefix as [[|p ps]|]; simpl nonempty; cbv iota; try reflexivity.
    destruct (endswith (String p ps) "-").
    + reflexivity.
    + by rewrite string_app_assoc.
  - by intros [-> | ->].
  - intros prefix -> Hp. destruct prefix; [done | reflexivity].
  - apply replace_length.
  - intros i. apply replace_get.
  - intros i. apply replace_absent. discriminate.
Qed.

Lemma get_lock_path_derivation_witness :
  _get_lock_path "a/b" (Some "nova") None (Some "/var/lock")
    = inr "/var/lock/nova-a_b".
Proof.
  destruct (get_lock_path_derivation "a/b" (Some "nova") None (Some "/var/lock")
              "/var/lock" eq_refl ltac:(discriminate)) as [H _].
  exact H.
Defined.

(** *** Running the primitives of [lock] *)

Lemma internal_lock_run name sems s :
  internal_lock name sems s
  = (Return (Semaphore (key sems name).1 name), got (key sems name) s).
Proof.
  unfold internal_lock, Semaphores_get, got, key. cbn.
  unfold mbind, M_bind, get_state. cbn.
  by destruct (counters s !! (default _semaphores sems, name)).
Qed.

Lemma got_free k s : free s k → ∃ v, counters (got k s) !! k = Some v ∧ 0 < v.
Proof.
  unfold free, got. destruct (counters s !! k) as [v|] eqn:E; intros H.
  - exists v. by rewrite E.
  - exists 1. cbn. by rewrite lookup_insert_eq.
Qed.

Lemma got_held k s : held s k → got k s = s.
Proof. intros (v & E & _). unfold got. by rewrite E. Qed.

Lemma sem_acquire_run c n s :
  free s (c, n) → sem_acquire c n (got (c, n) s) = (Return tt, entered (c, n) s).
Proof.
  intros Hf. destruct (got_free _ _ Hf) as (v & E & Hv).
  unfold sem_acquire, entered. unfold mbind, M_bind, get_state. cbn.
  rewrite E. cbn. destruct (Z.ltb_spec 0 v); [reflexivity | lia].
Qed.

Lemma sem_acquire_blocks c n s :
  held s (c, n) → sem_acquire c n s = (Blocked, s).
Proof.
  intros (v & E & Hv). unfold sem_acquire, mbind, M_bind, get_state. cbn.
  rewrite E. destruct (Z.ltb_spec 0 v); [lia | reflexivity].
Qed.

Lemma sem_release_run c n s :
  sem_release c n s = (Return tt, released (c, n) s).
Proof. reflexivity. Qed.

Lemma ext_acquire_run path delay s :
  path ∉ held_files s →
  ext_acquire path delay s = (Return tt, file_locked path delay s).
Proof.
  intros H. unfold ext_acquire, mbind, M_bind, get_state. cbn.
  by rewrite decide_False.
Qed.

Lemma ext_release_run path s :
  ext_release path s = (Return tt, file_unlocked path s).
Proof. reflexivity. Qed.

Lemma log_run do_log message name s :
  when do_log (emit (LogDebug message name)) s
  = (Return tt, log_if do_log message name s).
Proof. by destruct do_log. Qed.

Lemma CONF_entered k s : CONF (entered k s) = CONF s.
Proof. unfold entered, got. by destruct (counters s !! k). Qed.

Lemma CONF_log_if b m n s : CONF (log_if b m n s) = CONF s.
Proof. by destruct b. Qed.

Lemma held_files_entered k s : held_files (entered k s) = held_files s.
Proof. unfold entered, got. by destruct (counters s !! k). Qed.

Lemma held_files_log_if b m n s : held_files (log_if b m n s) = held_files s.
Proof. by destruct b. Qed.

Lemma counters_log_if b m n s : counters (log_if b m n s) = counters s.
Proof. by destruct b. Qed.

Lemma trace_log_if b m n s :
  trace (log_if b m n s) = trace s ++ (if b then [LogDebug m n] else []).
Proof. destruct b; [reflexivity | by rewrite app_nil_r]. Qed.

Lemma trace_entered k s :
  trace (entered k s)
  = trace s
    ++ match counters s !! k with Some _ => [] | None => [SemCreate k.1 k.2] end
    ++ [SemAcquire k.1 k.2].
Proof.
  unfold entered, got. destruct (counters s !! k); cbn; [reflexivity|].
  by rewrite <- app_assoc.
Qed.

Lemma counters_entered k s :
  counters (entered k s) = <[k := default 1 (counters s !! k) - 1]> (counters s).
Proof.
  unfold entered, got. destruct (counters s !! k) as [v|] eqn:E; cbn.
  - by rewrite E.
  - by rewrite lookup_insert_eq, insert_insert_eq.
Qed.

(** The part of [lock] that runs once the semaphore is taken. *)
Lemma lock_enter {A} name prefix external lock_path do_log sems delay
    (body : lock_object → M state A) s :
  free s (key sems name) →
  lock name prefix external lock_path do_log sems delay body s
  = try_finally
      (when do_log (emit (LogDebug "Acquired semaphore" name));;
       try_finally
         (s ← get_state;
          if external && negb (opt_disable_process_locking (CONF s)) then
            ext_lock ← external_lock name prefix lock_path;
            acquire ext_lock delay;;
            try_finally (body ext_lock) (exit ext_lock)
          else body (Semaphore (key sems name).1 name))
         (when do_log (emit (LogDebug "Releasing semaphore" name))))
      (exit (Semaphore (key sems name).1 name))
      (entered (key sems name) s).
Proof.
  intros Hf. unfold lock.
  rewrite (bind_return _ _ _ _ _ (internal_lock_run name sems s)).
  unfold with_, enter.
  by rewrite (bind_return _ _ _ _ _ (sem_acquire_run _ _ _ Hf)).
Qed.

Lemma lock_blocks {A} name prefix external lock_path do_log sems delay
    (body : lock_object → M state A) s :
  held s (key sems name) →
  lock name prefix external lock_path do_log sems delay body s = (Blocked, s).
Proof.
  intros Hh. unfold lock.
  rewrite (bind_return _ _ _ _ _ (internal_lock_run name sems s)).
  rewrite (got_held _ _ Hh).
  unfold with_, enter.
  by rewrite (bind_blocked _ _ _ _ (sem_acquire_blocks _ _ _ Hh)).
Qed.

Lemma external_lock_no_path name prefix lock_path s :
  no_lock_path lock_path s →
  external_lock name prefix lock_path s = (Raise (RequiredOptError "lock_path"), s).
Proof.
  intros H. unfold external_lock, mbind, M_bind, get_state, _get_lock_path. cbn.
  by destruct H as [-> | ->].
Qed.

Lemma lock_no_lock_path_run {A} name prefix lock_path do_log sems delay
    (body : lock_object → M state A) s :
  no_lock_path lock_path s →
  opt_disable_process_locking (CONF s) = false →
  free s (key sems name) →
  lock name prefix true lock_path do_log sems delay body s
  = (Raise (RequiredOptError "lock_path"),
     released (key sems name)
       (log_if do_log "Releasing semaphore" name
          (log_if do_log "Acquired semaphore" name (entered (key sems name) s)))).
Proof.
  intros Hdir Hdis Hf. rewrite lock_enter by done.
  set (k := key sems name).
  set (s1 := log_if do_log "Acquired semaphore" name (entered k s)).
  eapply try_finally_return; [|done|apply sem_release_run].
  rewrite (bind_return _ _ _ _ _ (log_run _ _ _ _)). fold s1.
  eapply try_finally_return; [|done|apply log_run].
  unfold mbind at 1, M_bind at 1, get_state at 1. cbn.
  assert (HC : CONF s1 = CONF s) by (unfold s1; by rewrite CONF_log_if, CONF_entered).
  rewrite HC, Hdis. cbn.
  apply bind_raise, external_lock_no_path.
  unfold no_lock_path. by rewrite HC.
Qed.

(** C1 (amended): a call of [lock] with [external=True], process locking
    not disabled and no lock directory (neither the argument nor the
    configured one) first takes the in-process semaphore of the name: when
    the semaphore is free the call then raises the configuration error
    [RequiredOptError('lock_path')] while holding it, without acquiring any
    file lock and without running the block, and releases the semaphore as
    the error propagates, so that it is free afterwards; when the semaphore
    is held the call waits for it and raises nothing. *)
Theorem lock_without_lock_path {A} name prefix lock_path do_log sems delay
    (body : lock_object → M state A) s :
  no_lock_path lock_path s →
  opt_disable_process_locking (CONF s) = false →
  let k := key sems name in
  let s' := released k
              (log_if do_log "Releasing semaphore" name
                 (log_if do_log "Acquired semaphore" name (entered k s))) in
  (free s k →
     lock name prefix true lock_path do_log sems delay body s
       = (Raise (RequiredOptError "lock_path"), s')
     ∧ trace s' = trace s
         ++ match counters s !! k with Some _ => [] | None => [SemCreate k.1 k.2] end
         ++ [SemAcquire k.1 k.2]
         ++ (if do_log then [LogDebug "Acquired semaphore" name] else [])
         ++ (if do_log then [LogDebug "Releasing semaphore" name] else [])
         ++ [SemRelease k.1 k.2]
     ∧ held_files s' = held_files s
     ∧ counters s' = <[k := default 1 (counters s !! k)]> (counters s)
     ∧ free s' k)
  ∧ (held s k →
     lock name prefix true lock_path do_log sems delay body s = (Blocked, s)).
Proof.
  intros Hdir Hdis k s'. split; [intros Hf | apply lock_blocks].
  assert (Hc : counters s' = <[k := default 1 (counters s !! k)]> (counters s)).
  { unfold s', released. cbn. rewrite !counters_log_if, counters_entered.
    rewrite lookup_insert_eq, insert_insert_eq. cbn. f_equal. lia. }
  split; [|split; [|split; [|split]]].
  - by apply lock_no_lock_path_run.
  - unfold s', released. cbn.
    rewrite !trace_log_if, trace_entered. by rewrite <- !app_assoc.
  - unfold s', released. cbn. by rewrite !held_files_log_if, held_files_entered.
  - exact Hc.
  - unfold free. rewrite Hc, lookup_insert_eq.
    unfold free in Hf. destruct (counters s !! k); cbn; [done | lia].
Qed.

Lemma lock_without_lock_path_witness :
  lock (A:=unit) "x" None true None true None (1 # 100) (λ _, mret tt) unconfigured
  = (Raise (RequiredOptError "lock_path"),
     released (0%nat, "x")
       (log_if true "Releasing semaphore" "x"
          (log_if true "Acquired semaphore" "x"
             (entered (0%nat, "x") unconfigured)))).
Proof.
  destruct (lock_without_lock_path (A:=unit) "x" None None true None (1 # 100)
              (λ _, mret tt) unconfigured (or_introl eq_refl) eq_refl)
    as [H _].
  destruct (H I) as [Hrun _]. exact Hrun.
Defined.

(** C1, as worded, fails: with no lock directory anywhere and a free
    semaphore, the call raises only after it has taken the semaphore. *)
Lemma lock_without_lock_path_counterexample :
  ¬ fails_before_acquiring "x" None None true None (1 # 100)
      (λ _, mret tt) unconfigured.
Proof.
  intros (s' & Hrun & Hacq & _).
  rewrite lock_no_lock_path_run in Hrun; [| by left | done | done].
  injection Hrun as <-. discriminate Hacq.
Qed.

Lemma external_lock_run name prefix lock_path path s :
  _get_lock_path name prefix lock_path (opt_lock_path (CONF s)) = inr path →
  external_lock name prefix lock_path s = (Return (InterProcessLock path), s).
Proof.
  intros H. unfold external_lock, mbind, M_bind, get_state. cbn. by rewrite H.
Qed.

Lemma lock_external_run {A} name prefix lock_path do_log sems delay
    (body : lock_object → M state A) s path r s2 :
  opt_disable_process_locking (CONF s) = false →
  _get_lock_path name prefix lock_path (opt_lock_path (CONF s)) = inr path →
  free s (key sems name) →
  path ∉ held_files s →
  body (InterProcessLock path) (acquired (key sems name) name do_log path delay s)
    = (r, s2) →
  lock name prefix true lock_path do_log sems delay body s
  = match r with
    | Blocked => (Blocked, s2)
    | _ => (r, left_block (key sems name) name do_log path s2)
    end.
Proof.
  intros Hdis Hp Hf Hnh Hbody. rewrite lock_enter by done.
  set (k := key sems name) in *.
  set (s1 := log_if do_log "Acquired semaphore" name (entered k s)).
  assert (HC : CONF s1 = CONF s) by (unfold s1; by rewrite CONF_log_if, CONF_entered).
  assert (Hh : held_files s1 = held_files s)
    by (unfold s1; by rewrite held_files_log_if, held_files_entered).
  assert (Hinner :
    (ext_lock ← external_lock name prefix lock_path;
     acquire ext_lock delay;;
     try_finally (body ext_lock) (exit ext_lock)) s1
    = match r with
      | Blocked => (Blocked, s2)
      | _ => (r, file_unlocked path s2)
      end).
  { rewrite (bind_return _ _ _ _ _ (external_lock_run _ _ _ path s1
               ltac:(by rewrite HC))).
    unfold acquire.
    rewrite (bind_return _ _ _ _ _ (ext_acquire_run path delay s1
               ltac:(by rewrite Hh))).
    destruct r.
    - eapply try_finally_return; [exact Hbody | done | apply ext_release_run].
    - eapply try_finally_return; [exact Hbody | done | apply ext_release_run].
    - by apply try_finally_blocked. }
  assert (Hmid :
    (when do_log (emit (LogDebug "Acquired semaphore" name));;
     try_finally
       (s ← get_state;
        if true && negb (opt_disable_process_locking (CONF s)) then
          ext_lock ← external_lock name prefix lock_path;
          acquire ext_lock delay;;
          try_finally (body ext_lock) (exit ext_lock)
        else body (Semaphore k.1 name))
       (when do_log (emit (LogDebug "Releasing semaphore" name)))) (entered k s)
    = match r with
      | Blocked => (Blocked, s2)
      | _ => (r, log_if do_log "Releasing semaphore" name (file_unlocked path s2))
      end).
  { rewrite (bind_return _ _ _ _ _ (log_run _ _ _ _)). fold s1.
    assert (Hget :
      (s ← get_state;
        if true && negb (opt_disable_process_locking (CONF s)) then
          ext_lock ← external_lock name prefix lock_path;
          acquire ext_lock delay;;
          try_finally (body ext_lock) (exit ext_lock)
        else body (Semaphore k.1 name)) s1
      = match r with
      | Blocked => (Blocked, s2)
      | _ => (r, file_unlocked path s2)
      end).
    { unfold mbind at 1, M_bind at 1, get_state at 1. cbn.
      rewrite HC, Hdis. cbn. exact Hinner. }
    destruct r.
    - eapply try_finally_return; [exact Hget | done | apply log_run].
    - eapply try_finally_return; [exact Hget | done | apply log_run].
    - by apply try_finally_blocked. }
  destruct r.
  - eapply try_finally_return; [exact Hmid | done | apply sem_release_run].
  - eapply try_finally_return; [exact Hmid | done | apply sem_release_run].
  - by apply try_finally_blocked.
Qed.

(** C9: when [lock] has taken the semaphore and then the file lock, and the
    block ends by returning or by raising, the file lock is released first
    and the semaphore second, on both paths, and the outcome of the block is
    the outcome of the call; if the block left the locks as it found them,
    both are free afterwards and the same [lock] call can be entered again
    at once. *)
Theorem lock_releases_in_reverse_order {A} name prefix lock_path do_log sems delay
    (body : lock_object → M state A) s path r s2 :
  opt_disable_process_locking (CONF s) = false →
  _get_lock_path name prefix lock_path (opt_lock_path (CONF s)) = inr path →
  let k := key sems name in
  free s k →
  path ∉ held_files s →
  let s1 := acquired k name do_log path delay s in
  body (InterProcessLock path) s1 = (r, s2) →
  r ≠ Blocked →
  let s3 := left_block k name do_log path s2 in
  lock name prefix true lock_path do_log sems delay body s = (r, s3)
  ∧ trace s1 = trace s
      ++ match counters s !! k with Some _ => [] | None => [SemCreate k.1 k.2] end
      ++ [SemAcquire k.1 k.2]
      ++ (if do_log then [LogDebug "Acquired semaphore" name] else [])
      ++ [ExtAcquire path delay]
  ∧ trace s3 = trace s2
      ++ [ExtRelease path]
      ++ (if do_log then [LogDebug "Releasing semaphore" name] else [])
      ++ [SemRelease k.1 k.2]
  ∧ held_files s3 = (held_files s2 ∖ {[path]})
  ∧ counters s3 = <[k := default 0 (counters s2 !! k) + 1]> (counters s2)
  ∧ (counters s2 = counters s1 → held_files s2 = held_files s1 →
     CONF s2 = CONF s1 →
     free s3 k ∧ (path ∉ held_files s3)
     ∧ ∃ s4, lock name prefix true lock_path do_log sems delay
               (λ _, mret tt) s3 = (Return tt, s4)).
Proof.
  intros Hdis Hp k Hf Hnh s1 Hbody Hr s3.
  assert (Hh3 : held_files s3 = held_files s2 ∖ {[path]}).
  { unfold s3, left_block, released. cbn. by rewrite held_files_log_if. }
  assert (Hc3 : counters s3 = <[k := default 0 (counters s2 !! k) + 1]> (counters s2)).
  { unfold s3, left_block, released. cbn. by rewrite !counters_log_if. }
  split; [|split; [|split; [|split; [|split]]]].
  - rewrite (lock_external_run _ _ _ _ _ _ _ _ _ _ _ Hdis Hp Hf Hnh Hbody).
    by destruct r.
  - unfold s1, acquired, file_locked. cbn.
    rewrite trace_log_if, trace_entered. by rewrite <- !app_assoc.
  - unfold s3, left_block, released. cbn.
    rewrite trace_log_if. unfold file_unlocked. cbn. by rewrite <- !app_assoc.
  - exact Hh3.
  - exact Hc3.
  - intros Hc Hh HC.
    assert (Hc1 : counters s1 !! k = Some (default 1 (counters s !! k) - 1)).
    { unfold s1, acquired, file_locked. cbn.
      by rewrite counters_log_if, counters_entered, lookup_insert_eq. }
    assert (Hfree3 : free s3 k).
    { unfold free. rewrite Hc3, lookup_insert_eq, Hc, Hc1. cbn.
      unfold free in Hf. destruct (counters s !! k); cbn; lia. }
    assert (Hnh3 : path ∉ held_files s3).
    { rewrite Hh3. apply not_elem_of_difference. right. by apply elem_of_singleton. }
    assert (HC3 : CONF s3 = CONF s).
    { unfold s3, left_block, released. cbn. rewrite CONF_log_if. cbn.
      rewrite HC. unfold s1, acquired, file_locked. cbn.
      by rewrite CONF_log_if, CONF_entered. }
    split; [done | split; [done|]].
    eexists.
    rewrite (lock_external_run name prefix lock_path do_log sems delay
               (λ _, mret tt) s3 path (Return tt)
               (acquired k name do_log path delay s3));
      [reflexivity | by rewrite HC3 | by rewrite HC3 | done | done | reflexivity].
Qed.

Lemma lock_releases_in_reverse_order_witness :
  ∃ s3,
    lock (A:=unit) "x" None true (Some "/var/lock") true None (1 # 100)
      (λ _, raise (OtherException "ValueError" "boom")) unconfigured
    = (Raise (OtherException "ValueError" "boom"), s3)
    ∧ trace s3 =
        [SemCreate 0 "x"; SemAcquire 0 "x"; LogDebug "Acquired semaphore" "x";
         ExtAcquire "/var/lock/x" (1 # 100); ExtRelease "/var/lock/x";
         LogDebug "Releasing semaphore" "x"; SemRelease 0 "x"]
    ∧ ∃ s4, lock "x" None true (Some "/var/lock") true None (1 # 100)
              (λ _, mret tt) s3 = (Return tt, s4).
Proof.
  eexists.
  destruct (lock_releases_in_reverse_order (A:=unit) "x" None (Some "/var/lock")
              true None (1 # 100)
              (λ _, raise (OtherException "ValueError" "boom")) unconfigured
              "/var/lock/x" (Raise (OtherException "ValueError" "boom")) _
              eq_refl eq_refl I ltac:(vm_compute; intros H; inversion H)
              eq_refl ltac:(discriminate))
    as (Hrun & _ & Htrace & _ & _ & Hagain).
  destruct (Hagain eq_refl eq_refl eq_refl) as (_ & _ & Hlock).
  split; [exact Hrun | split; [exact Htrace | exact Hlock]].
Defined.

End lockutils_facts.

(** ** Theorems about processutils *)
Module processutils_facts.
Import processutils.

Section with_world.
Context {W proc : Type} (rt : @runtime W proc).
Local Abbreviation St := (@St W).
Local Abbreviation locals := (@locals W proc).
Implicit Types (l : locals) (s : St) (e : exn) (kw : @Kwargs W proc).

Lemma spawns_app t1 t2 : spawns (t1 ++ t2) = (spawns t1 + spawns t2)%nat.
Proof.
  induction t1 as [|[] t1 IH]; cbn; try done. by rewrite IH.
Qed.

Ltac run_attempt :=
  unfold attempt, subprocess_Popen, LOG_log, call, perform, emit, get, raise,
    mbind, M_bind, mret, M_ret; cbn.

Lemma attempt_trace l s r s' :
  attempt rt l s = (r, s') →
  r ≠ Blocked
  ∧ ∃ evs, trace s' = trace s ++ evs ∧ spawns evs = 1%nat
           ∧ Forall (λ ev, is_failure_log ev = false
                           ∧ ∀ a, ev = Spawn a → a = spawn_args rt l) evs.
Proof.
  run_attempt. 
  repeat match goal with
  | |- context [match ?x with _ => _ end] =>
      lazymatch x with
      | context [match _ with _ => _ end] => fail
      | _ => destruct x; cbn
      end
  end.
  all: intros [= <- <-]. all: (split; [done|]); cbn; rewrite <- ?app_assoc; cbn.
  all: eexists; (split; [reflexivity|]); split; [reflexivity|].
  all: repeat constructor; congruence.
Qed.

Lemma existsb_elem_of (rc : Z) (codes : list Z) :
  existsb (Z.eqb rc) codes = true ↔ rc ∈ codes.
Proof.
  rewrite existsb_exists, list_elem_of_In. split.
  - intros (x & Hin & Heq). apply Z.eqb_eq in Heq. by subst.
  - intros Hin. exists rc. split; [done | apply Z.eqb_refl].
Qed.

(** What [prelude] leaves in the local variables. *)
Lemma prelude_locals cmd0 kw l :
  prelude rt cmd0 kw = inr l →
  kw_unknown kw = []
  ∧ attempts l = default 1 (kw_attempts kw)
  ∧ binary l = default false (kw_binary kw)
  ∧ shell l = default false (kw_shell kw)
  ∧ on_execute l = kw_on_execute kw
  ∧ on_completion l = kw_on_completion kw
  ∧ log_errors l = kw_log_errors kw
  ∧ sanitized_cmd l = mask_password rt (native rt (join " " (cmd l)))
  ∧ ∀ rc, negb (ignore_exit_code l)
           && negb (existsb (Z.eqb rc) (check_exit_code l)) = false
          ↔ accepts (kw_check_exit_code kw) rc.
Proof.
  unfold prelude.
  destruct (kw_unknown kw); [|by destruct (default _ (kw_check_exit_code kw))].
  set (c := default (CodeList [0]) (kw_check_exit_code kw)).
  assert (Hc : ∀ rc,
    negb (match c with CodeBool b => (negb b, [0]) | CodeInt n => (false, [n])
                     | CodeList l => (false, l) end).1
    && negb (existsb (Z.eqb rc)
               (match c with CodeBool b => (negb b, [0])
                           | CodeInt n => (false, [n])
                           | CodeList l => (false, l) end).2) = false
    ↔ accepts (kw_check_exit_code kw) rc).
  { intros rc. unfold c, accepts.
    destruct (kw_check_exit_code kw) as [[[]|n|codes]|]; cbn.
    - rewrite orb_false_r, negb_false_iff, Z.eqb_eq. done.
    - done.
    - rewrite orb_false_r, negb_false_iff, Z.eqb_eq. done.
    - rewrite negb_false_iff. apply existsb_elem_of.
    - rewrite orb_false_r, negb_false_iff, Z.eqb_eq. done. }
  destruct c; cbn in Hc |- *.
  all: match goal with
       | |- (if ?c then _ else _) = _ → _ => destruct c; [done|]
       end.
  all: match goal with
       | |- context [match ?x with inl _ => _ | inr _ => _ end] => destruct x; [done|]
       end.
  all: intros [= <-]; cbn; repeat (split; [reflexivity|]); exact Hc.
Qed.

Lemma attempt_completes l s out err rc s' :
  completes rt l s out err rc s' →
  attempt rt l s
  = (if negb (ignore_exit_code l)
        && negb (existsb (Z.eqb rc) (check_exit_code l))
     then Raise (failure rt l out err rc)
     else Return (returned rt l out err), s').
Proof.
  intros (p & w1 & w2 & w3 & w4 & Hp & He & Hc & Hr & Hf & ->).
  unfold returned, failure, decoded. revert He Hf. unfold call_opt. run_attempt.
  rewrite Hp. cbn.
  destruct (on_execute l) as [f|]; cbn.
  - intros ->. cbn. rewrite Hc. cbn. rewrite Hr.
    destruct (on_completion l) as [g|]; cbn.
    + intros ->. cbn. rewrite <- !app_assoc. cbn.
      by repeat (match goal with |- context [if ?b then _ else _] => destruct b end; cbn).
    + intros [= <-]. rewrite <- !app_assoc. cbn.
      by repeat (match goal with |- context [if ?b then _ else _] => destruct b end; cbn).
  - intros [= <-]. rewrite Hc. cbn. rewrite Hr.
    destruct (on_completion l) as [g|]; cbn.
    + intros ->. cbn. rewrite <- !app_assoc. cbn.
      by repeat (match goal with |- context [if ?b then _ else _] => destruct b end; cbn).
    + intros [= <-]. rewrite <- !app_assoc. cbn.
      by repeat (match goal with |- context [if ?b then _ else _] => destruct b end; cbn).
Qed.

Lemma handler_retry l m e s :
  ∃ s', handler rt l (S m) e s = (Return Continues, s')
        ∧ ∃ evs, trace s' = trace s ++ evs ∧ spawns evs = 0%nat.
Proof.
  unfold handler, when, LOG_log, time_sleep, perform, emit, raise,
    mbind, M_bind, mret, M_ret. cbn.
  repeat match goal with
  | |- context [match ?x with _ => _ end] =>
      lazymatch x with
      | context [match _ with _ => _ end] => fail
      | _ => destruct x; cbn
      end
  end.
  all: eexists; (split; [reflexivity|]); cbn; rewrite <- ?app_assoc.
  all: eexists; (split; [reflexivity|]); reflexivity.
Qed.

Lemma handler_final l e s :
  ∃ s', handler rt l 0 e s = (Raise e, s')
        ∧ ∃ evs, trace s' = trace s ++ evs ∧ spawns evs = 0%nat.
Proof.
  unfold handler, when, LOG_log, time_sleep, perform, emit, raise,
    mbind, M_bind, mret, M_ret. cbn.
  repeat match goal with
  | |- context [match ?x with _ => _ end] =>
      lazymatch x with
      | context [match _ with _ => _ end] => fail
      | _ => destruct x; cbn
      end
  end.
  all: eexists; (split; [reflexivity|]); cbn; rewrite <- ?app_assoc.
  all: eexists; (split; [reflexivity|]); reflexivity.
Qed.

Lemma iteration_returns l m s v s1 :
  attempt rt l s = (Return v, s1) →
  iteration rt l m s = (Return (Returns v), slept s1).
Proof.
  intros H. unfold iteration, try_finally, try_except.
  by rewrite (bind_return _ _ _ _ _ H).
Qed.

Lemma iteration_uncaught l m s e s1 :
  attempt rt l s = (Raise e, s1) → caught e = false →
  iteration rt l m s = (Raise e, slept s1).
Proof.
  intros H Hc. unfold iteration, try_finally, try_except.
  rewrite (bind_raise _ _ _ _ _ H). by rewrite Hc.
Qed.

Lemma iteration_retry l m s :
  fails rt l s →
  ∃ s', iteration rt l (S m) s = (Return Continues, s')
        ∧ spawns (trace s') = (spawns (trace s) + 1)%nat.
Proof.
  intros (e & s1 & H & Hc).
  destruct (attempt_trace _ _ _ _ H) as (_ & evs & Ht & Hs & _).
  destruct (handler_retry l m e s1) as (s2 & Hh & evs' & Ht' & Hs').
  exists (slept s2). split.
  - unfold iteration, try_finally, try_except.
    rewrite (bind_raise _ _ _ _ _ H). by rewrite Hc, Hh.
  - cbn. rewrite Ht', Ht, !spawns_app, Hs, Hs'. cbn. lia.
Qed.

Lemma iteration_final l s e s1 :
  attempt rt l s = (Raise e, s1) → caught e = true →
  ∃ s', iteration rt l 0 s = (Raise e, s')
        ∧ spawns (trace s') = (spawns (trace s) + 1)%nat.
Proof.
  intros H Hc.
  destruct (attempt_trace _ _ _ _ H) as (_ & evs & Ht & Hs & _).
  destruct (handler_final l e s1) as (s2 & Hh & evs' & Ht' & Hs').
  exists (slept s2). split.
  - unfold iteration, try_finally, try_except.
    rewrite (bind_raise _ _ _ _ _ H). by rewrite Hc, Hh.
  - cbn. rewrite Ht', Ht, !spawns_app, Hs, Hs'. cbn. lia.
Qed.

(** As long as the attempts fail, the loop goes on. *)
Lemma retry_loop_prefix l k : ∀ n s,
  (k < n)%nat →
  (∀ i, (i < k)%nat → fails rt l (state_before rt l n i s)) →
  retry_loop rt l n s = retry_loop rt l (n - k) (state_before rt l n k s)
  ∧ spawns (trace (state_before rt l n k s)) = (spawns (trace s) + k)%nat.
Proof.
  induction k as [|k IH]; intros n s Hk Hf.
  - rewrite Nat.sub_0_r. cbn. split; [done | lia].
  - destruct n as [|[|n]]; [lia | lia |].
    destruct (iteration_retry l n s (Hf 0%nat ltac:(lia))) as (s' & Hi & Hs).
    destruct (IH (S n) s' ltac:(lia)) as [Hl Hs'].
    { intros i Hi'. specialize (Hf (S i) ltac:(lia)).
      cbn [state_before] in Hf. by rewrite Hi in Hf. }
    cbn [state_before]. rewrite Hi. cbn [snd]. split.
    + change (retry_loop rt l (S (S n)) s)
        with ((iteration rt l (S n) ≫= λ r,
                 match r with
                 | Returns result => mret (Some result)
                 | Continues => retry_loop rt l (S n)
                 end) s).
      rewrite (bind_return _ _ _ _ _ Hi). exact Hl.
    + rewrite Hs', Hs. lia.
Qed.

Lemma spawns_slept s : spawns (trace (slept s)) = spawns (trace s).
Proof. cbn. rewrite spawns_app. cbn. lia. Qed.

Lemma execute_prelude cmd0 kw l s :
  prelude rt cmd0 kw = inr l →
  execute rt cmd0 kw s = retry_loop rt l (Z.to_nat (attempts l)) s.
Proof. intros H. unfold execute. by rewrite H. Qed.

Lemma retry_loop_unfold l m s :
  retry_loop rt l (S m) s
  = (iteration rt l m ≫= λ r,
       match r with
       | Returns result => mret (Some result)
       | Continues => retry_loop rt l m
       end) s.
Proof. reflexivity. Qed.

Lemma retry_loop_returns l m s v s1 :
  attempt rt l s = (Return v, s1) →
  retry_loop rt l (S m) s = (Return (Some v), slept s1).
Proof.
  intros H. rewrite retry_loop_unfold.
  by rewrite (bind_return _ _ _ _ _ (iteration_returns l m s v s1 H)).
Qed.

Lemma retry_loop_uncaught l m s e s1 :
  attempt rt l s = (Raise e, s1) → caught e = false →
  retry_loop rt l (S m) s = (Raise e, slept s1).
Proof.
  intros H Hc. rewrite retry_loop_unfold.
  by rewrite (bind_raise _ _ _ _ _ (iteration_uncaught l m s e s1 H Hc)).
Qed.

Lemma retry_loop_final l s e s1 :
  attempt rt l s = (Raise e, s1) → caught e = true →
  ∃ s', retry_loop rt l 1 s = (Raise e, s')
        ∧ spawns (trace s') = (spawns (trace s) + 1)%nat.
Proof.
  intros H Hc.
  destruct (iteration_final l s e s1 H Hc) as (s' & Hi & Hs).
  exists s'. split; [|done]. rewrite retry_loop_unfold.
  by rewrite (bind_raise _ _ _ _ _ Hi).
Qed.

Lemma attempts_nat cmd0 kw l n :
  prelude rt cmd0 kw = inr l →
  default 1 (kw_attempts kw) = Z.of_nat n →
  Z.to_nat (attempts l) = n.
Proof.
  intros Hp Hn. destruct (prelude_locals _ _ _ Hp) as (_ & -> & _).
  rewrite Hn. apply Nat2Z.id.
Qed.

(** C6: with [attempts=n], [n >= 1]: if every attempt fails with an error
    the loop catches, [Popen] is called exactly [n] times and [execute]
    raises the error of the last attempt, which carries that attempt's exit
    code when the process ran to its end; if attempt number [k] returns
    after [k] failed ones, [execute] returns its result and [Popen] was
    called [k + 1] times. *)
Theorem execute_retries_until_success cmd0 kw l n s :
  prelude rt cmd0 kw = inr l →
  default 1 (kw_attempts kw) = Z.of_nat n →
  (1 ≤ n)%nat →
  ((∀ i, (i < n)%nat → fails rt l (state_before rt l n i s)) →
     ∃ e s_last s',
       attempt rt l (state_before rt l n (n - 1) s) = (Raise e, s_last)
       ∧ execute rt cmd0 kw s = (Raise e, s')
       ∧ spawns (trace s') = (spawns (trace s) + n)%nat
       ∧ ∀ out err rc s'',
           completes rt l (state_before rt l n (n - 1) s) out err rc s'' →
           e = ProcessExecutionError (Some (mask_password rt (decoded rt out)))
                 (Some (mask_password rt (decoded rt err))) (Some rc)
                 (Some (sanitized_cmd l)) None)
  ∧ (∀ k v s_k, (k < n)%nat →
       (∀ i, (i < k)%nat → fails rt l (state_before rt l n i s)) →
       attempt rt l (state_before rt l n k s) = (Return v, s_k) →
       execute rt cmd0 kw s = (Return (Some v), slept s_k)
       ∧ spawns (trace (slept s_k)) = (spawns (trace s) + (k + 1))%nat).
Proof.
  intros Hp Hn Hn1.
  rewrite (execute_prelude _ _ _ s Hp), (attempts_nat _ _ _ _ Hp Hn).
  split.
  - intros Hf.
    destruct (retry_loop_prefix l (n - 1) n s ltac:(lia)) as [Hl Hs].
    { intros i Hi. apply Hf. lia. }
    destruct (Hf (n - 1)%nat ltac:(lia)) as (e & s_last & Ha & Hc).
    destruct (retry_loop_final l _ e s_last Ha Hc) as (s' & Hr & Hs').
    exists e, s_last, s'. split; [done|]. split; [|split].
    + rewrite Hl. replace (n - (n - 1))%nat with 1%nat by lia. exact Hr.
    + rewrite Hs', Hs. lia.
    + intros out err rc s'' Hcomp.
      rewrite (attempt_completes _ _ _ _ _ _ Hcomp) in Ha.
      destruct (negb _ && negb _); [|discriminate].
      by injection Ha as <- _.
  - intros k v s_k Hk Hf Ha.
    destruct (retry_loop_prefix l k n s Hk Hf) as [Hl Hs].
    rewrite Hl. replace (n - k)%nat with (S (n - k - 1)) by lia.
    rewrite (retry_loop_returns l _ _ v s_k Ha). split; [done|].
    destruct (attempt_trace _ _ _ _ Ha) as (_ & evs & Ht & Hs1 & _).
    rewrite spawns_slept, Ht, spawns_app, Hs, Hs1. lia.
Qed.

(** *** One attempt that runs to completion *)

Lemma attempt_accepted cmd0 kw l s out err rc s1 :
  prelude rt cmd0 kw = inr l →
  completes rt l s out err rc s1 →
  accepts (kw_check_exit_code kw) rc →
  attempt rt l s = (Return (returned rt l out err), s1).
Proof.
  intros Hp Hc Ha. rewrite (attempt_completes _ _ _ _ _ _ Hc).
  destruct (prelude_locals _ _ _ Hp) as (_ & _ & _ & _ & _ & _ & _ & _ & Hacc).
  apply Hacc in Ha. by rewrite Ha.
Qed.

Lemma attempt_rejected cmd0 kw l s out err rc s1 :
  prelude rt cmd0 kw = inr l →
  completes rt l s out err rc s1 →
  ¬ accepts (kw_check_exit_code kw) rc →
  attempt rt l s = (Raise (failure rt l out err rc), s1).
Proof.
  intros Hp Hc Ha. rewrite (attempt_completes _ _ _ _ _ _ Hc).
  destruct (prelude_locals _ _ _ Hp) as (_ & _ & _ & _ & _ & _ & _ & _ & Hacc).
  destruct (negb _ && negb _) eqn:E; [done|]. by apply Hacc in E.
Qed.

Lemma accepts_dec c rc : accepts c rc ∨ ¬ accepts c rc.
Proof.
  destruct c as [[[]|n|codes]|]; cbn.
  - destruct (decide (rc = 0)); tauto.
  - tauto.
  - destruct (decide (rc = n)); tauto.
  - destruct (decide (rc ∈ codes)); tauto.
  - destruct (decide (rc = 0)); tauto.
Qed.

Lemma execute_first_success cmd0 kw l n s out err rc s1 :
  prelude rt cmd0 kw = inr l →
  default 1 (kw_attempts kw) = Z.of_nat (S n) →
  completes rt l s out err rc s1 →
  accepts (kw_check_exit_code kw) rc →
  execute rt cmd0 kw s = (Return (Some (returned rt l out err)), slept s1).
Proof.
  intros Hp Hn Hc Ha.
  rewrite (execute_prelude _ _ _ s Hp), (attempts_nat _ _ _ _ Hp Hn).
  apply retry_loop_returns. by eapply attempt_accepted.
Qed.

Lemma execute_single_failure cmd0 kw l s out err rc s1 :
  prelude rt cmd0 kw = inr l →
  default 1 (kw_attempts kw) = 1 →
  completes rt l s out err rc s1 →
  ¬ accepts (kw_check_exit_code kw) rc →
  ∃ s', execute rt cmd0 kw s = (Raise (failure rt l out err rc), s')
        ∧ spawns (trace s') = (spawns (trace s) + 1)%nat.
Proof.
  intros Hp Hn Hc Ha.
  rewrite (execute_prelude _ _ _ s Hp), (attempts_nat _ _ _ 1%nat Hp Hn).
  eapply retry_loop_final; [by eapply attempt_rejected | done].
Qed.

(** C3: the accepted exit codes are those of [accepts]: only 0 for [True]
    and for an absent option, every code for [False], only [n] for an
    integer [n], exactly the listed codes for a list.  An attempt whose
    process ran to its end raises [ProcessExecutionError] exactly when its
    exit code is not accepted and returns exactly when it is; so does
    [execute] on its first attempt. *)
Theorem check_exit_code_policy cmd0 kw l s out err rc s1 :
  prelude rt cmd0 kw = inr l →
  completes rt l s out err rc s1 →
  (attempt rt l s = (Raise (failure rt l out err rc), s1)
     ↔ ¬ accepts (kw_check_exit_code kw) rc)
  ∧ (attempt rt l s = (Return (returned rt l out err), s1)
     ↔ accepts (kw_check_exit_code kw) rc)
  ∧ (∀ n, default 1 (kw_attempts kw) = Z.of_nat (S n) →
       accepts (kw_check_exit_code kw) rc →
       execute rt cmd0 kw s = (Return (Some (returned rt l out err)), slept s1))
  ∧ (default 1 (kw_attempts kw) = 1 →
       ¬ accepts (kw_check_exit_code kw) rc →
       ∃ s', execute rt cmd0 kw s = (Raise (failure rt l out err rc), s')).
Proof.
  intros Hp Hc. split; [|split; [|split]].
  - split; [|by eapply attempt_rejected].
    intros H Ha. rewrite (attempt_accepted _ _ _ _ _ _ _ _ Hp Hc Ha) in H.
    discriminate.
  - split; [|by eapply attempt_accepted].
    intros H. destruct (accepts_dec (kw_check_exit_code kw) rc) as [|Hn]; [done|].
    rewrite (attempt_rejected _ _ _ _ _ _ _ _ Hp Hc Hn) in H. discriminate.
  - intros n Hn Ha. by eapply execute_first_success.
  - intros Hn Ha.
    destruct (execute_single_failure _ _ _ _ _ _ _ _ Hp Hn Hc Ha) as (s' & H & _).
    by exists s'.
Qed.

(** C7 (amended): when the process ran to its end with an accepted exit
    code, [execute] returns its output without [mask_password]: decoded with
    [os.fsdecode] on Python 3 unless [binary] is true, the raw bytes on
    Python 3 with [binary] true and on Python 2 whatever [binary] is.  With
    an exit code that is not accepted, the [ProcessExecutionError] carries
    the output through [mask_password] (decoded first on Python 3) and the
    masked command line. *)
Theorem success_unmasked_failure_masked cmd0 kw l s out err rc s1 :
  prelude rt cmd0 kw = inr l →
  completes rt l s out err rc s1 →
  let output :=
    if PY3 rt && negb (default false (kw_binary kw)) then
      (Text (fsdecode rt out), Text (fsdecode rt err))
    else (Bytes out, Bytes err) in
  let error :=
    ProcessExecutionError
      (Some (mask_password rt
               (if PY3 rt then Text (fsdecode rt out) else Bytes out)))
      (Some (mask_password rt
               (if PY3 rt then Text (fsdecode rt err) else Bytes err)))
      (Some rc)
      (Some (mask_password rt (native rt (join " " (cmd l))))) None in
  (accepts (kw_check_exit_code kw) rc →
     attempt rt l s = (Return output, s1)
     ∧ ∀ n, default 1 (kw_attempts kw) = Z.of_nat (S n) →
            execute rt cmd0 kw s = (Return (Some output), slept s1))
  ∧ (¬ accepts (kw_check_exit_code kw) rc →
     attempt rt l s = (Raise error, s1)
     ∧ (default 1 (kw_attempts kw) = 1 →
        ∃ s', execute rt cmd0 kw s = (Raise error, s'))).
Proof.
  intros Hp Hc output error.
  destruct (prelude_locals _ _ _ Hp)
    as (_ & _ & Hb & _ & _ & _ & _ & Hs & _).
  assert (Ho : returned rt l out err = output)
    by (unfold returned, output; by rewrite Hb).
  assert (He : failure rt l out err rc = error)
    by (unfold failure, error, decoded; by rewrite Hs).
  rewrite <- Ho, <- He. split; intros Ha.
  - split; [by eapply attempt_accepted|].
    intros n Hn. by eapply execute_first_success.
  - split; [by eapply attempt_rejected|].
    intros Hn.
    destruct (execute_single_failure _ _ _ _ _ _ _ _ Hp Hn Hc Ha) as (s' & H & _).
    by exists s'.
Qed.

(** *** Errors raised before the loop *)

Lemma execute_prelude_error cmd0 kw e s :
  prelude rt cmd0 kw = inl e → execute rt cmd0 kw s = (Raise e, s).
Proof. intros H. unfold execute. by rewrite H. Qed.

Lemma log_errors_check (v : option Z) :
  existsb (opt_eqb v) [None; Some LOG_ALL_ERRORS; Some LOG_FINAL_ERROR] = true
  ↔ valid_log_errors v.
Proof.
  unfold valid_log_errors, LOG_ALL_ERRORS, LOG_FINAL_ERROR.
  destruct v as [z|]; cbn; [|by intuition].
  destruct (Z.eqb_spec z 1) as [->|N1]; cbn; [by intuition|].
  destruct (Z.eqb_spec z 2) as [->|N2]; cbn; [by intuition|].
  split; [done|]. intros [[=] | [[=] | [=]]]; congruence.
Qed.

(** C4: a call with an unrecognised keyword raises [UnknownArgumentError],
    and a call whose keywords are all recognised but whose [log_errors] is
    neither [None], [LOG_ALL_ERRORS] nor [LOG_FINAL_ERROR] raises
    [InvalidArgumentError]; in both cases nothing has been done (the state is
    unchanged: no process, no log record), whatever [attempts] is. *)
Theorem invalid_arguments_fail_fast cmd0 kw s :
  (kw_unknown kw ≠ [] →
     execute rt cmd0 kw s = (Raise (UnknownArgumentError (kw_unknown kw)), s))
  ∧ (kw_unknown kw = [] →
     ∀ v, kw_log_errors kw = Some v →
          v ≠ LOG_ALL_ERRORS → v ≠ LOG_FINAL_ERROR →
          execute rt cmd0 kw s
          = (Raise (InvalidArgumentError
                      ("Got invalid arg log_errors: " +:+ pretty v)), s)).
Proof.
  split.
  - intros Hu. apply execute_prelude_error. unfold prelude.
    destruct (kw_unknown kw); [done|].
    by destruct (default _ (kw_check_exit_code kw)).
  - intros Hu v Hv H1 H2. apply execute_prelude_error. unfold prelude.
    rewrite Hu, Hv.
    assert (E : existsb (opt_eqb (Some v))
                  [None; Some LOG_ALL_ERRORS; Some LOG_FINAL_ERROR] = false).
    { apply not_true_is_false. rewrite log_errors_check.
      intros [[=] | [[=] | [=]]]; congruence. }
    rewrite E. by destruct (default _ (kw_check_exit_code kw)).
Qed.

(** *** What the loop spawns *)

Lemma spawns_none (evs : list event) P :
  spawns evs = 0%nat → Forall (λ ev, ∀ a, ev = Spawn a → P a) evs.
Proof.
  induction evs as [|[] evs IH]; cbn; intros H; constructor;
    try discriminate; try done; by apply IH.
Qed.

Lemma iteration_trace l m s r s' :
  iteration rt l m s = (r, s') →
  ∃ evs, trace s' = trace s ++ evs ∧ (1 ≤ spawns evs)%nat
         ∧ Forall (spawned_as rt l) evs.
Proof.
  intros Hi. destruct (attempt rt l s) as [r1 s1] eqn:Ha.
  destruct (attempt_trace _ _ _ _ Ha) as (Hnb & evs & Ht & Hs & Hall).
  assert (Hsp : Forall (spawned_as rt l) evs).
  { eapply Forall_impl; [exact Hall|]. by intros ev [_ H]. }
  assert (Hsl : Forall (spawned_as rt l) [Sleep 0]).
  { constructor; [|constructor]. intros a [=]. }
  destruct r1 as [v|e|]; [| |done].
  - rewrite (iteration_returns l m s v s1 Ha) in Hi. injection Hi as <- <-.
    exists (evs ++ [Sleep 0]). cbn. rewrite Ht, <- app_assoc, spawns_app, Hs.
    split; [done|]. split; [lia|]. by apply Forall_app.
  - destruct (caught e) eqn:Hc.
    + assert (∃ s2 evs2, s' = slept s2 ∧ trace s2 = trace s1 ++ evs2
                         ∧ spawns evs2 = 0%nat) as (s2 & evs2 & -> & Ht2 & Hs2).
      { destruct m as [|m].
        - destruct (handler_final l e s1) as (s2 & Hh & evs2 & Ht2 & Hs2).
          exists s2, evs2. split; [|done].
          unfold iteration, try_finally, try_except in Hi.
          rewrite (bind_raise _ _ _ _ _ Ha), Hc, Hh in Hi. by injection Hi as _ <-.
        - destruct (handler_retry l m e s1) as (s2 & Hh & evs2 & Ht2 & Hs2).
          exists s2, evs2. split; [|done].
          unfold iteration, try_finally, try_except in Hi.
          rewrite (bind_raise _ _ _ _ _ Ha), Hc, Hh in Hi. by injection Hi as _ <-. }
      exists (evs ++ evs2 ++ [Sleep 0]). cbn.
      rewrite Ht2, Ht, <- !app_assoc, !spawns_app, Hs.
      split; [done|]. split; [lia|].
      apply Forall_app. split; [done|]. apply Forall_app. split; [|done].
      by apply spawns_none.
    + rewrite (iteration_uncaught l m s e s1 Ha Hc) in Hi. injection Hi as <- <-.
      exists (evs ++ [Sleep 0]). cbn. rewrite Ht, <- app_assoc, spawns_app, Hs.
      split; [done|]. split; [lia|]. by apply Forall_app.
Qed.

Lemma retry_loop_trace l n : ∀ s r s',
  retry_loop rt l n s = (r, s') →
  ∃ evs, trace s' = trace s ++ evs
         ∧ ((1 ≤ n)%nat → (1 ≤ spawns evs)%nat)
         ∧ Forall (spawned_as rt l) evs.
Proof.
  induction n as [|n IH]; intros s r s' H.
  - injection H as <- <-. exists []. rewrite app_nil_r.
    split; [done|]. split; [lia | constructor].
  - rewrite retry_loop_unfold in H. unfold mbind, M_bind in H.
    destruct (iteration rt l n s) as [r1 s1] eqn:Hi.
    destruct (iteration_trace _ _ _ _ _ Hi) as (evs & Ht & Hs & Hall).
    destruct r1 as [[v|]|e|].
    + injection H as <- <-. exists evs. done.
    + destruct (IH _ _ _ H) as (evs' & Ht' & _ & Hall').
      exists (evs ++ evs'). rewrite Ht', Ht, <- app_assoc, spawns_app.
      split; [done|]. split; [lia|]. by apply Forall_app.
    + injection H as <- <-. exists evs. done.
    + injection H as <- <-. exists evs. done.
Qed.

Lemma map_py_str (c : list string) : map py_str c = c.
Proof. induction c as [|x c IH]; cbn; [done | by rewrite IH]. Qed.

(** The part of [prelude] after the argument checks. *)
Lemma prelude_checked cmd0 kw :
  kw_unknown kw = [] →
  valid_log_errors (kw_log_errors kw) →
  ∀ cmd1,
    (if default false (kw_run_as_root kw)
        && match geteuid rt with Some uid => negb (uid =? 0) | None => false end
     then
       if negb (nonempty (default "" (kw_root_helper kw))) then
         inl (NoRootWrapSpecified
                "Command requested root, but did not specify a root helper.")
       else if default false (kw_shell kw) then
         match cmd0 with
         | c0 :: rest => inr (join " " [default "" (kw_root_helper kw); c0] :: rest)
         | [] => inl (OtherException "IndexError" "tuple index out of range")
         end
       else
         match shlex_split rt (default "" (kw_root_helper kw)) with
         | inr tokens => inr (tokens ++ cmd0)
         | inl e => inl e
         end
     else inr cmd0) = cmd1 →
    match cmd1 with
    | inl e => prelude rt cmd0 kw = inl e
    | inr c => ∃ l, prelude rt cmd0 kw = inr l ∧ cmd l = c
                    ∧ shell l = default false (kw_shell kw)
    end.
Proof.
  intros Hu Hv cmd1 H. unfold prelude. rewrite Hu.
  apply log_errors_check in Hv. rewrite Hv. cbn [negb].
  destruct (default _ (kw_check_exit_code kw)); rewrite H.
  all: destruct cmd1; [done|]; eexists; (split; [reflexivity|]); cbn.
  all: by rewrite map_py_str.
Qed.

Lemma nonempty_false (x : string) : nonempty x = false ↔ x = "".
Proof. by destruct x. Qed.

Lemma execute_spawns cmd0 kw l s r s' :
  prelude rt cmd0 kw = inr l →
  execute rt cmd0 kw s = (r, s') →
  ∃ evs, trace s' = trace s ++ evs
         ∧ (1 ≤ attempts l → (1 ≤ spawns evs)%nat)
         ∧ Forall (λ ev, ∀ a, ev = Spawn a →
                      args a = cmd l ∧ popen_shell a = shell l) evs.
Proof.
  intros Hp He. rewrite (execute_prelude _ _ _ s Hp) in He.
  destruct (retry_loop_trace _ _ _ _ _ He) as (evs & Ht & Hs & Hall).
  exists evs. split; [done|]. split; [intros; apply Hs; lia|].
  eapply Forall_impl; [exact Hall|]. intros ev H a Ha.
  rewrite (H a Ha). unfold spawn_args. by destruct (String.eqb _ _).
Qed.

(** C5: in an otherwise valid call with [run_as_root=True] by a user who is
    not root: with an empty [root_helper] the call raises
    [NoRootWrapSpecified] before anything is done; otherwise with
    [shell=True] every process is spawned with the helper, a space and the
    first argument as its first argument and the other arguments unchanged,
    and with [shell=False] with the tokens of [shlex.split(root_helper)] in
    front of the arguments. *)
Theorem run_as_root_prefixes_helper cmd0 kw s uid :
  kw_unknown kw = [] →
  valid_log_errors (kw_log_errors kw) →
  kw_run_as_root kw = Some true →
  geteuid rt = Some uid →
  uid ≠ 0 →
  let root_helper := default "" (kw_root_helper kw) in
  let spawned_with (argv : list string) :=
    ∃ l, prelude rt cmd0 kw = inr l ∧ cmd l = argv
         ∧ ∀ r s', execute rt cmd0 kw s = (r, s') →
             ∃ evs, trace s' = trace s ++ evs
               ∧ (1 ≤ attempts l → (1 ≤ spawns evs)%nat)
               ∧ Forall (λ ev, ∀ a, ev = Spawn a →
                            args a = argv
                            ∧ popen_shell a = default false (kw_shell kw)) evs in
  (root_helper = "" →
     execute rt cmd0 kw s
     = (Raise (NoRootWrapSpecified
                 "Command requested root, but did not specify a root helper."),
        s))
  ∧ (root_helper ≠ "" → kw_shell kw = Some true →
     ∀ c0 rest, cmd0 = c0 :: rest →
                spawned_with ((root_helper +:+ " " +:+ c0) :: rest))
  ∧ (root_helper ≠ "" → default false (kw_shell kw) = false →
     ∀ tokens, shlex_split rt root_helper = inr tokens →
               spawned_with (tokens ++ cmd0)).
Proof.
  intros Hu Hv Hroot Hg Huid root_helper spawned_with.
  pose proof (prelude_checked cmd0 kw Hu Hv _ eq_refl) as H.
  rewrite Hroot, Hg in H. cbn [default] in H.
  assert (Hneq : negb (uid =? 0) = true)
    by (apply negb_true_iff; by apply Z.eqb_neq).
  rewrite Hneq in H. cbn [andb] in H. fold root_helper in H.
  split; [|split].
  - intros Hh. apply execute_prelude_error.
    apply nonempty_false in Hh. by rewrite Hh in H.
  - intros Hh Hs c0 rest ->.
    assert (Hne : nonempty root_helper = true).
    { destruct (nonempty root_helper) eqn:E; [done|]. by apply nonempty_false in E. }
    rewrite Hne, Hs in H. cbn in H. destruct H as (l & Hp & Hc & Hsh).
    exists l. split; [done|]. split; [done|]. intros r s' He.
    destruct (execute_spawns _ _ _ _ _ _ Hp He) as (evs & Ht & Hsp & Hall).
    exists evs. rewrite <- Hc, Hs. cbn [default]. by rewrite <- Hsh.
  - intros Hh Hs tokens Htok.
    assert (Hne : nonempty root_helper = true).
    { destruct (nonempty root_helper) eqn:E; [done|]. by apply nonempty_false in E. }
    rewrite Hne, Hs, Htok in H. cbn in H. destruct H as (l & Hp & Hc & Hsh).
    exists l. split; [done|]. split; [done|]. intros r s' He.
    destruct (execute_spawns _ _ _ _ _ _ Hp He) as (evs & Ht & Hsp & Hall).
    exists evs. rewrite <- Hc, Hs. by rewrite <- Hsh.
Qed.

(** *** trycmd *)

(** C8: when [execute] raises a [ProcessExecutionError], [trycmd] returns
    the empty string and the text of the error; when [execute] returns
    [(out, err)], [trycmd] returns [(out, '')] if [discard_warnings] is true
    and [err] is not empty, and [(out, err)] otherwise. *)
Theorem trycmd_returns_instead_of_raising args0 dw kw s :
  (∀ so se ec c d s',
     execute rt args0 kw s = (Raise (ProcessExecutionError so se ec c d), s') →
     trycmd rt args0 dw kw s
     = (Return (native rt "", Text (message rt so se ec c d)), s'))
  ∧ (∀ out err s',
     execute rt args0 kw s = (Return (Some (out, err)), s') →
     trycmd rt args0 dw kw s
     = (Return (out, if default false dw && truthy err
                     then native rt "" else err), s')).
Proof.
  split.
  - intros so se ec c d s' H. unfold trycmd, try_except.
    unfold mbind at 1, M_bind at 1.
    by rewrite (bind_raise _ _ _ _ _ H).
  - intros out err s' H. unfold trycmd, try_except.
    unfold mbind at 1, M_bind at 1.
    by rewrite (bind_return _ _ _ _ _ H).
Qed.

(** *** Exceptions the loop does not catch *)

Lemma attempt_on_execute_raises l s p w1 f e w2 :
  Popen rt (spawn_args rt l) (world s) = (inr p, w1) →
  on_execute l = Some f →
  f p w1 = (Some e, w2) →
  attempt rt l s
  = (Raise e,
     {| world := w2;
        trace := trace s ++ [Log (loglevel l) (Running (sanitized_cmd l));
                             Spawn (spawn_args rt l); OnExecute] |}).
Proof.
  intros Hp Hf He.
  unfold attempt, subprocess_Popen, LOG_log, call, perform, emit, get, raise,
    mbind, M_bind, mret, M_ret. cbn.
  rewrite Hp, Hf. cbn. rewrite He. cbn. by rewrite <- !app_assoc.
Qed.

Lemma attempt_on_completion_raises l s p w1 w2 out err w3 g e w4 :
  Popen rt (spawn_args rt l) (world s) = (inr p, w1) →
  call_opt (on_execute l) p w1 = (None, w2) →
  communicate rt p (process_input l) w2 = (inr (out, err), w3) →
  on_completion l = Some g →
  g p w3 = (Some e, w4) →
  attempt rt l s
  = (Raise e,
     {| world := w4;
        trace := trace s
          ++ [Log (loglevel l) (Running (sanitized_cmd l));
              Spawn (spawn_args rt l)]
          ++ match on_execute l with Some _ => [OnExecute] | None => [] end
          ++ [Communicate (process_input l); StdinClose;
              Log (loglevel l)
                (Returned (sanitized_cmd l) (returncode rt p w3));
              OnCompletion] |}).
Proof.
  intros Hp Hf Hc Hg He. revert Hf. unfold call_opt.
  unfold attempt, subprocess_Popen, LOG_log, call, perform, emit, get, raise,
    mbind, M_bind, mret, M_ret. cbn.
  rewrite Hp, Hg. cbn.
  destruct (on_execute l) as [f|]; cbn.
  - intros ->. cbn. rewrite Hc. cbn. rewrite He. cbn. by rewrite <- !app_assoc.
  - intros [= <-]. rewrite Hc. cbn. rewrite He. cbn. by rewrite <- !app_assoc.
Qed.

(** C10: the loop catches [ProcessExecutionError] and [OSError] only.  When
    an attempt raises any other exception, after [k] failed attempts and
    with attempts left, [execute] raises it at once: [Popen] was called
    [k + 1] times and nothing is written by the [except] block, only the
    [sleep(0)] of [finally] follows.  An exception raised by [on_execute] or
    [on_completion] is raised by the attempt. *)
Theorem uncaught_exception_propagates cmd0 kw l n k s e s_k :
  prelude rt cmd0 kw = inr l →
  default 1 (kw_attempts kw) = Z.of_nat n →
  (k < n)%nat →
  (∀ i, (i < k)%nat → fails rt l (state_before rt l n i s)) →
  attempt rt l (state_before rt l n k s) = (Raise e, s_k) →
  caught e = false →
  (execute rt cmd0 kw s = (Raise e, slept s_k)
   ∧ spawns (trace (slept s_k)) = (spawns (trace s) + (k + 1))%nat
   ∧ ∃ evs, trace (slept s_k) = trace (state_before rt l n k s) ++ evs
            ∧ Forall (λ ev, is_failure_log ev = false) evs)
  ∧ (∀ e', caught e' = true
           ↔ (∃ so se ec c d, e' = ProcessExecutionError so se ec c d)
             ∨ (∃ errno, e' = OSError errno))
  ∧ (∀ s0 p w1 f e' w2,
       Popen rt (spawn_args rt l) (world s0) = (inr p, w1) →
       kw_on_execute kw = Some f →
       f p w1 = (Some e', w2) →
       ∃ s1, attempt rt l s0 = (Raise e', s1))
  ∧ (∀ s0 p w1 w2 out err w3 g e' w4,
       Popen rt (spawn_args rt l) (world s0) = (inr p, w1) →
       call_opt (kw_on_execute kw) p w1 = (None, w2) →
       communicate rt p (process_input l) w2 = (inr (out, err), w3) →
       kw_on_completion kw = Some g →
       g p w3 = (Some e', w4) →
       ∃ s1, attempt rt l s0 = (Raise e', s1)).
Proof.
  intros Hp Hn Hk Hf Ha Hc.
  destruct (prelude_locals _ _ _ Hp)
    as (_ & _ & _ & _ & Hoe & Hoc & _).
  split; [|split; [|split]].
  - rewrite (execute_prelude _ _ _ s Hp), (attempts_nat _ _ _ _ Hp Hn).
    destruct (retry_loop_prefix l k n s Hk Hf) as [Hl Hs].
    destruct (attempt_trace _ _ _ _ Ha) as (_ & evs & Ht & Hs1 & Hall).
    split; [|split].
    + rewrite Hl. replace (n - k)%nat with (S (n - k - 1)) by lia.
      by apply retry_loop_uncaught.
    + rewrite spawns_slept, Ht, spawns_app, Hs, Hs1. lia.
    + exists (evs ++ [Sleep 0]). cbn. rewrite Ht, <- app_assoc.
      split; [done|]. apply Forall_app. split.
      * eapply Forall_impl; [exact Hall|]. by intros ev [H _].
      * by repeat constructor.
  - intros e'. split.
    + destruct e'; try discriminate; intros _; [left | right]; eauto 10.
    + by intros [(so & se & ec & c & d & ->) | (errno & ->)].
  - intros s0 p w1 f e' w2 HP Hfe He. rewrite <- Hoe in Hfe.
    eexists. by eapply attempt_on_execute_raises.
  - intros s0 p w1 w2 out err w3 g e' w4 HP Hfe Hco Hg He.
    rewrite <- Hoe in Hfe. rewrite <- Hoc in Hg.
    eexists. by eapply attempt_on_completion_raises.
Qed.

End with_world.

(** ** The theorems on the example host *)

Import example_host.

Ltac run_completes := do 5 eexists; repeat split; reflexivity.

(** Evaluates [prelude] on a concrete call and names the result. *)
Ltac run_prelude rt c kw Hp :=
  let r := eval vm_compute in (prelude rt c kw) in
  match r with
  | inr ?l => assert (Hp : prelude rt c kw = inr l) by (vm_compute; reflexivity)
  end.

(** Runs the attempt of a concrete call to the end of its process. *)
Ltac run_attempt_of rt Hp s out err rc Hc :=
  match type of Hp with
  | _ = inr ?l => eassert (Hc : completes rt l s out err rc _) by run_completes
  end.

(** Evaluates the left-hand side of an equation between outcomes. *)
Ltac run_equation :=
  match goal with
  | |- ?lhs = _ =>
      let r := eval vm_compute in lhs in
      transitivity r; [vm_compute; reflexivity | reflexivity]
  end.

Ltac run_fails :=
  match goal with
  | |- fails ?rt ?l ?s =>
      let r := eval vm_compute in (attempt rt l s) in
      match r with
      | (Raise ?e, ?s') =>
          exists e, s'; split; [vm_compute; reflexivity | reflexivity]
      end
  end.

Lemma check_exit_code_policy_witness :
  (∃ s', execute py3 ["true"] (kwargs [check_exit_code_is (CodeList [1; 2])]) boot
         = (Raise (ProcessExecutionError (Some (Text "")) (Some (Text ""))
                     (Some 0) (Some (Text "true")) None), s'))
  ∧ (∃ s', execute py3 ["true"] (kwargs [check_exit_code_is (CodeInt 0)]) boot
           = (Return (Some (Text "", Text "")), s')).
Proof.
  split.
  - run_prelude py3 ["true"] (kwargs [check_exit_code_is (CodeList [1; 2])]) Hp.
    run_attempt_of py3 Hp boot "" "" 0 Hc.
    destruct (check_exit_code_policy py3 _ _ _ _ _ _ _ _ Hp Hc) as (_ & _ & _ & H).
    apply H; [reflexivity|]. cbn.
    intros Hin. by repeat (apply elem_of_cons in Hin as [?|Hin]; [done|]);
      apply elem_of_nil in Hin.
  - run_prelude py3 ["true"] (kwargs [check_exit_code_is (CodeInt 0)]) Hp.
    run_attempt_of py3 Hp boot "" "" 0 Hc.
    destruct (check_exit_code_policy py3 _ _ _ _ _ _ _ _ Hp Hc) as (_ & _ & H & _).
    eexists. apply (H 0%nat); reflexivity.
Defined.

Lemma invalid_arguments_fail_fast_witness :
  execute py3 ["true"] (kwargs [attempts_is 3; unknown_is "bogus"]) boot
  = (Raise (UnknownArgumentError ["bogus"]), boot)
  ∧ execute py3 ["true"] (kwargs [attempts_is 3; log_errors_is 7]) boot
    = (Raise (InvalidArgumentError "Got invalid arg log_errors: 7"), boot).
Proof.
  split.
  - destruct (invalid_arguments_fail_fast py3 ["true"]
                (kwargs [attempts_is 3; unknown_is "bogus"]) boot) as [H _].
    apply H. discriminate.
  - destruct (invalid_arguments_fail_fast py3 ["true"]
                (kwargs [attempts_is 3; log_errors_is 7]) boot) as [_ H].
    apply (H eq_refl 7 eq_refl); discriminate.
Defined.

Lemma run_as_root_prefixes_helper_witness :
  execute py3 ["true"] (kwargs [run_as_root_is true]) boot
  = (Raise (NoRootWrapSpecified
              "Command requested root, but did not specify a root helper."),
     boot)
  ∧ (∃ l, prelude py3 ["true"]
            (kwargs [run_as_root_is true; root_helper_is "sudo"; shell_is true])
          = inr l ∧ cmd l = ["sudo true"])
  ∧ (∃ l, prelude py3 ["true"]
            (kwargs [run_as_root_is true; root_helper_is "sudo"])
          = inr l ∧ cmd l = ["sudo"; "true"]).
Proof.
  split; [|split].
  - destruct (run_as_root_prefixes_helper py3 ["true"]
                (kwargs [run_as_root_is true]) boot 1000
                eq_refl (or_introl eq_refl) eq_refl eq_refl ltac:(discriminate))
      as (H & _ & _).
    by apply H.
  - destruct (run_as_root_prefixes_helper py3 ["true"]
                (kwargs [run_as_root_is true; root_helper_is "sudo"; shell_is true])
                boot 1000
                eq_refl (or_introl eq_refl) eq_refl eq_refl ltac:(discriminate))
      as (_ & H & _).
    destruct (H ltac:(discriminate) eq_refl "true" [] eq_refl) as (l & Hp & Hc & _).
    by exists l.
  - destruct (run_as_root_prefixes_helper py3 ["true"]
                (kwargs [run_as_root_is true; root_helper_is "sudo"])
                boot 1000
                eq_refl (or_introl eq_refl) eq_refl eq_refl ltac:(discriminate))
      as (_ & _ & H).
    destruct (H ltac:(discriminate) eq_refl ["sudo"] eq_refl) as (l & Hp & Hc & _).
    by exists l.
Defined.

Lemma execute_retries_until_success_witness :
  (∃ s', execute py3 ["false"] (kwargs [attempts_is 3]) boot
         = (Raise (ProcessExecutionError (Some (Text "")) (Some (Text ""))
                     (Some 1) (Some (Text "false")) None), s')
         ∧ spawns (trace s') = 3%nat)
  ∧ (∃ s', execute py3 ["flaky"] (kwargs [attempts_is 5]) boot
           = (Return (Some (Text "", Text "")), s')
           ∧ spawns (trace s') = 3%nat).
Proof.
  split.
  - run_prelude py3 ["false"] (kwargs [attempts_is 3]) Hp.
    destruct (execute_retries_until_success py3 _ _ _ 3%nat boot Hp eq_refl
                ltac:(lia)) as [H _].
    destruct H as (e & s_last & s' & Ha & He & Hs & Hcode).
    { intros i Hi. destruct i as [|[|[|i]]]; [run_fails | run_fails | run_fails | lia]. }
    exists s'. split; [|exact Hs].
    rewrite He. f_equal. f_equal.
    match type of Hp with
    | _ = inr ?l =>
        eassert (Hc : completes py3 l (state_before py3 l 3 2 boot) "" "" 1 _)
          by run_completes
    end.
    exact (Hcode _ _ _ _ Hc).
  - run_prelude py3 ["flaky"] (kwargs [attempts_is 5]) Hp.
    destruct (execute_retries_until_success py3 _ _ _ 5%nat boot Hp eq_refl
                ltac:(lia)) as [_ H].
    edestruct (H 2%nat) as [He Hs]; [lia | | run_equation |].
    { intros i Hi. destruct i as [|[|i]]; [run_fails | run_fails | lia]. }
    eexists. split; [exact He | exact Hs].
Defined.

Lemma success_unmasked_failure_masked_witness :
  (∃ s', execute py3 ["echo"; "password=secret"] no_kwargs boot
         = (Return (Some (Text ("password=secret" +:+ newline), Text "")), s'))
  ∧ (∃ s', execute py3 ["ls"; "password=secret"] no_kwargs boot
           = (Raise (ProcessExecutionError (Some (Text ""))
                       (Some (Text ("ls: cannot access password=******" +:+ newline)))
                       (Some 2) (Some (Text "ls password=******")) None), s')).
Proof.
  split.
  - run_prelude py3 ["echo"; "password=secret"] no_kwargs Hp.
    run_attempt_of py3 Hp boot ("password=secret" +:+ newline) "" 0 Hc.
    destruct (success_unmasked_failure_masked py3 _ _ _ _ _ _ _ _ Hp Hc) as [H _].
    destruct (H eq_refl) as [_ He]. eexists. exact (He 0%nat eq_refl).
  - run_prelude py3 ["ls"; "password=secret"] no_kwargs Hp.
    run_attempt_of py3 Hp boot ""
      ("ls: cannot access password=secret" +:+ newline) 2 Hc.
    destruct (success_unmasked_failure_masked py3 _ _ _ _ _ _ _ _ Hp Hc) as [_ H].
    destruct (H ltac:(discriminate)) as [_ He]. exact (He eq_refl).
Defined.

(** C7, as worded, fails on Python 2: [execute('echo', 'password=secret')]
    returns the raw bytes though [binary] is false ([six.PY3 and not binary]
    is false), not the decoded text. *)
Lemma success_output_python2_counterexample :
  ¬ ∃ s', execute py2 ["echo"; "password=secret"] no_kwargs boot
          = (Return (Some (returned_as_worded py2 false
                             ("password=secret" +:+ newline) "")), s').
Proof. intros [s' H]. vm_compute in H. discriminate H. Qed.

Lemma trycmd_returns_instead_of_raising_witness :
  (∃ text s', trycmd py3 ["ls"; "x"] None no_kwargs boot
              = (Return (Text "", Text text), s'))
  ∧ (∃ s', trycmd py3 ["dd"] (Some true) no_kwargs boot
           = (Return (Text "", Text ""), s'))
  ∧ (∃ s', trycmd py3 ["dd"] (Some false) no_kwargs boot
           = (Return (Text "", Text ("0+0 records in" +:+ newline)), s')).
Proof.
  split; [|split].
  - destruct (trycmd_returns_instead_of_raising py3 ["ls"; "x"] None no_kwargs boot)
      as [H _].
    eexists; eexists. eapply H. run_equation.
  - destruct (trycmd_returns_instead_of_raising py3 ["dd"] (Some true) no_kwargs boot)
      as [_ H].
    eexists. eapply (H (Text "") (Text ("0+0 records in" +:+ newline))). run_equation.
  - destruct (trycmd_returns_instead_of_raising py3 ["dd"] (Some false) no_kwargs boot)
      as [_ H].
    eexists. eapply (H (Text "") (Text ("0+0 records in" +:+ newline))). run_equation.
Defined.

Lemma uncaught_exception_propagates_witness :
  ∃ s', execute py3 ["false"]
          (kwargs [attempts_is 3; on_execute_is raising_callback]) boot
        = (Raise (OtherException "ValueError" "boom"), s')
        ∧ spawns (trace s') = 1%nat.
Proof.
  run_prelude py3 ["false"] (kwargs [attempts_is 3; on_execute_is raising_callback]) Hp.
  match type of Hp with
  | _ = inr ?l =>
      let r := eval vm_compute in (attempt py3 l boot) in
      match r with
      | (Raise ?e, ?s_k) =>
          destruct (uncaught_exception_propagates py3 _ _ l 3%nat 0%nat boot e s_k
                      Hp eq_refl ltac:(lia) ltac:(intros i Hi; lia)
                      ltac:(vm_compute; reflexivity) eq_refl)
            as [(He & Hs & _) _]
      end
  end.
  eexists. split; [exact He | exact Hs].
Defined.

End processutils_facts.

(** ** More about lockutils *)
Module lockutils_more.
Import lockutils lockutils_facts.

(** *** The lock file path *)

Lemma replace_idempotent (old new : ascii) (s : string) :
  old ≠ new → replace old new (replace old new s) = replace old new s.
Proof.
  intros Hne. induction s as [|c s IH]; cbn; [done|]. rewrite IH. f_equal.
  destruct (Ascii.eqb c old) eqn:E; [|by rewrite E].
  destruct (Ascii.eqb new old) eqn:E'; [|done].
  apply Ascii.eqb_eq in E'. by destruct Hne.
Qed.

(** X14: the lock file of a name is the lock file of the name with its path
    separators replaced by underscores: two names that differ only by a
    separator written as an underscore share one lock file. *)
Theorem get_lock_path_of_sanitized_name
    (name : string) (lock_file_prefix lock_path conf_lock_path : option string) :
  _get_lock_path (sanitized_name name) lock_file_prefix lock_path conf_lock_path
  = _get_lock_path name lock_file_prefix lock_path conf_lock_path.
Proof.
  unfold _get_lock_path, sanitized_name.
  by rewrite replace_idempotent by discriminate.
Qed.

Lemma startswith_app (a b : string) (c : ascii) :
  a ≠ "" → startswith (a +:+ b) c = startswith a c.
Proof. by destruct a. Qed.

Lemma startswith_replace (s : string) :
  startswith (replace os.sep "_" s) os.sep = false.
Proof.
  destruct s as [|c s]; [done|]. cbn.
  destruct (Ascii.eqb c os.sep) eqn:E; [done | exact E].
Qed.

(** X15: where the lock file lands.  Without a prefix (none, or the empty
    one) the file lies in the lock directory: its path is the directory, a
    separator unless the directory ends with one, and the sanitized name.
    With a prefix that starts with the path separator, [os.path.join] drops
    the directory: the path is the prefix part and the sanitized name
    alone, outside the configured lock directory. *)
Theorem get_lock_path_location
    (name : string) (lock_file_prefix lock_path conf_lock_path : option string)
    (lock_dir : string) :
  py_or lock_path conf_lock_path = Some lock_dir →
  lock_dir ≠ "" →
  (lock_file_prefix = None ∨ lock_file_prefix = Some "" →
     _get_lock_path name lock_file_prefix lock_path conf_lock_path
     = inr (lock_dir +:+ (if endswith lock_dir os.sep then "" else "/")
            +:+ sanitized_name name))
  ∧ (∀ prefix, lock_file_prefix = Some prefix →
       startswith prefix os.sep = true →
       _get_lock_path name lock_file_prefix lock_path conf_lock_path
       = inr (prefix_part lock_file_prefix +:+ sanitized_name name)).
Proof.
  intros Hdir Hne.
  assert (Hn : nonempty lock_dir = true) by (by destruct lock_dir).
  split.
  - intros Hp. unfold _get_lock_path. rewrite Hdir, Hn.
    assert (Hname : match lock_file_prefix with
                    | Some prefix =>
                        if nonempty prefix then
                          prefix +:+ (if endswith prefix "-" then "" else "-")
                          +:+ replace os.sep "_" name
                        else replace os.sep "_" name
                    | None => replace os.sep "_" name
                    end = sanitized_name name)
      by (by destruct Hp as [-> | ->]).
    rewrite Hname. unfold os.path.join, sanitized_name.
    rewrite startswith_replace, Hn. cbn [negb orb].
    by destruct (endswith lock_dir os.sep).
  - intros prefix -> Hs. unfold _get_lock_path. rewrite Hdir, Hn.
    assert (Hp : nonempty prefix = true) by (by destruct prefix).
    rewrite Hp. unfold os.path.join.
    rewrite startswith_app by (by destruct prefix). rewrite Hs.
    f_equal. unfold prefix_part, sanitized_name.
    destruct prefix as [|c p]; [done|].
    destruct (endswith (String c p) "-"); [done|].
    by rewrite string_app_assoc.
Qed.

Lemma get_lock_path_location_witness :
  _get_lock_path "a/b" None None (Some "/var/lock") = inr "/var/lock/a_b"
  ∧ _get_lock_path "a/b" (Some "/tmp/x") None (Some "/var/lock")
    = inr "/tmp/x-a_b".
Proof.
  destruct (get_lock_path_location "a/b" None None (Some "/var/lock") "/var/lock"
              eq_refl ltac:(discriminate)) as [H _].
  destruct (get_lock_path_location "a/b" (Some "/tmp/x") None (Some "/var/lock")
              "/var/lock" eq_refl ltac:(discriminate)) as [_ H'].
  split; [exact (H (or_introl eq_refl)) | exact (H' "/tmp/x" eq_refl eq_refl)].
Defined.


(** *** The registry of semaphores *)


(** *** lock without a file lock *)

(** A block that runs with the semaphore alone. *)
Lemma lock_in_process_run {A} name prefix external lock_path do_log sems delay
    (body : lock_object → M state A) s r s2 :
  external = false ∨ opt_disable_process_locking (CONF s) = true →
  free s (key sems name) →
  body (Semaphore (key sems name).1 name)
    (log_if do_log "Acquired semaphore" name (entered (key sems name) s))
    = (r, s2) →
  lock name prefix external lock_path do_log sems delay body s
  = match r with
    | Blocked => (Blocked, s2)
    | _ => (r, released (key sems name)
                 (log_if do_log "Releasing semaphore" name s2))
    end.
Proof.
  intros Hext Hf Hbody. rewrite lock_enter by done.
  set (k := key sems name) in *.
  set (s1 := log_if do_log "Acquired semaphore" name (entered k s)) in *.
  assert (HC : CONF s1 = CONF s) by (unfold s1; by rewrite CONF_log_if, CONF_entered).
  assert (Hget :
    (s ← get_state;
     if external && negb (opt_disable_process_locking (CONF s)) then
       ext_lock ← external_lock name prefix lock_path;
       acquire ext_lock delay;;
       try_finally (body ext_lock) (exit ext_lock)
     else body (Semaphore k.1 name)) s1 = (r, s2)).
  { unfold mbind at 1, M_bind at 1, get_state at 1. cbn. rewrite HC.
    destruct Hext as [-> | ->]; [done | by rewrite andb_false_r]. }
  assert (Hmid :
    (when do_log (emit (LogDebug "Acquired semaphore" name));;
     try_finally
       (s ← get_state;
        if external && negb (opt_disable_process_locking (CONF s)) then
          ext_lock ← external_lock name prefix lock_path;
          acquire ext_lock delay;;
          try_finally (body ext_lock) (exit ext_lock)
        else body (Semaphore k.1 name))
       (when do_log (emit (LogDebug "Releasing semaphore" name)))) (entered k s)
    = match r with
      | Blocked => (Blocked, s2)
      | _ => (r, log_if do_log "Releasing semaphore" name s2)
      end).
  { rewrite (bind_return _ _ _ _ _ (log_run _ _ _ _)). fold s1.
    destruct r.
    - eapply try_finally_return; [exact Hget | done | apply log_run].
    - eapply try_finally_return; [exact Hget | done | apply log_run].
    - by apply try_finally_blocked. }
  destruct r.
  - eapply try_finally_return; [exact Hmid | done | apply sem_release_run].
  - eapply try_finally_return; [exact Hmid | done | apply sem_release_run].
  - by apply try_finally_blocked.
Qed.

(** X17: with [external=False], or with process locking disabled, [lock]
    uses the semaphore alone: the block receives the semaphore, no lock
    directory is needed and no file lock is touched; when the block returns
    or raises, its outcome is the outcome of the call and the semaphore has
    been released (after the "Releasing" record when [do_log] is true). *)
Theorem lock_in_process {A} name prefix external lock_path do_log sems delay
    (body : lock_object → M state A) s r s2 :
  external = false ∨ opt_disable_process_locking (CONF s) = true →
  let k := key sems name in
  free s k →
  let s1 := log_if do_log "Acquired semaphore" name (entered k s) in
  body (Semaphore k.1 name) s1 = (r, s2) →
  r ≠ Blocked →
  let s3 := released k (log_if do_log "Releasing semaphore" name s2) in
  lock name prefix external lock_path do_log sems delay body s = (r, s3)
  ∧ held_files s1 = held_files s
  ∧ held_files s3 = held_files s2
  ∧ trace s3 = trace s2
      ++ (if do_log then [LogDebug "Releasing semaphore" name] else [])
      ++ [SemRelease k.1 k.2]
  ∧ counters s3 = <[k := default 0 (counters s2 !! k) + 1]> (counters s2).
Proof.
  intros Hext k Hf s1 Hbody Hr s3.
  split; [|split; [|split; [|split]]].
  - rewrite (lock_in_process_run _ _ _ _ _ _ _ _ _ _ _ Hext Hf Hbody).
    by destruct r.
  - unfold s1. by rewrite held_files_log_if, held_files_entered.
  - unfold s3, released. cbn. by rewrite held_files_log_if.
  - unfold s3, released. cbn. by rewrite trace_log_if, <- app_assoc.
  - unfold s3, released. cbn. by rewrite counters_log_if.
Qed.

Lemma free_or_held s k : free s k ∨ held s k.
Proof.
  unfold free, held. destruct (counters s !! k) as [v|]; [|by left].
  destruct (decide (0 < v)); [by left | right]. exists v. split; [done | lia].
Qed.

(** X18: when process locking is disabled in the configuration, a call with
    [external=True] is the call with [external=False], in every state and
    for every block: the request for a file lock is dropped without an
    error, also when no lock directory is configured. *)
Theorem lock_external_disabled {A} name prefix lock_path do_log sems delay
    (body : lock_object → M state A) s :
  opt_disable_process_locking (CONF s) = true →
  lock name prefix true lock_path do_log sems delay body s
  = lock name prefix false lock_path do_log sems delay body s.
Proof.
  intros Hd. destruct (free_or_held s (key sems name)) as [Hf | Hh].
  - destruct (body (Semaphore (key sems name).1 name)
                (log_if do_log "Acquired semaphore" name
                   (entered (key sems name) s))) as [r s2] eqn:Hb.
    rewrite (lock_in_process_run name prefix true lock_path do_log sems delay
               body s r s2 (or_intror Hd) Hf Hb).
    by rewrite (lock_in_process_run name prefix false lock_path do_log sems delay
                  body s r s2 (or_introl eq_refl) Hf Hb).
  - by rewrite !lock_blocks.
Qed.


(** *** Nested locks *)

Lemma counters_entered_ne k k' s :
  k' ≠ k → counters (entered k s) !! k' = counters s !! k'.
Proof. intros H. by rewrite counters_entered, lookup_insert_ne. Qed.

(** X19: the lock of a name is not re-entrant.  When the semaphore of the
    name is fresh or free with counter 1 and the block of a [lock] call
    (without a file lock) asks for the lock of the same name in the same
    container, the inner call waits for ever, with the semaphore still held
    by the outer one. *)
Theorem lock_is_not_reentrant {A} name prefix external lock_path do_log sems delay
    prefix' external' lock_path' do_log' delay'
    (body : lock_object → M state A) s :
  external = false ∨ opt_disable_process_locking (CONF s) = true →
  let k := key sems name in
  counters s !! k = None ∨ counters s !! k = Some 1 →
  let s1 := log_if do_log "Acquired semaphore" name (entered k s) in
  lock name prefix external lock_path do_log sems delay
    (λ _, lock name prefix' external' lock_path' do_log' sems delay' body) s
  = (Blocked, s1)
  ∧ counters s1 !! k = Some 0.
Proof.
  intros Hext k Hk s1.
  assert (Hc : counters s1 !! k = Some 0).
  { unfold s1. rewrite counters_log_if, counters_entered, lookup_insert_eq.
    by destruct Hk as [-> | ->]. }
  split; [|done].
  assert (Hf : free s k) by (unfold free; by destruct Hk as [-> | ->]).
  rewrite (lock_in_process_run name prefix external lock_path do_log sems delay
             _ s Blocked s1 Hext Hf); [done|].
  apply lock_blocks. exists 0. by split.
Qed.

(** X20: locks of different names nest.  When both semaphores are free and
    neither call takes a file lock, the block of the inner call runs
    holding both, and on return or exception the inner semaphore is
    released before the outer one. *)
Theorem lock_nests_with_other_name {A} name1 name2 prefix1 prefix2 lock_path1
    lock_path2 do_log sems delay1 delay2 (body : lock_object → M state A)
    s r s3 :
  name1 ≠ name2 →
  let k1 := key sems name1 in
  let k2 := key sems name2 in
  free s k1 → free s k2 →
  let s1 := log_if do_log "Acquired semaphore" name1 (entered k1 s) in
  let s2 := log_if do_log "Acquired semaphore" name2 (entered k2 s1) in
  body (Semaphore k2.1 name2) s2 = (r, s3) →
  r ≠ Blocked →
  let s4 := released k2 (log_if do_log "Releasing semaphore" name2 s3) in
  let s5 := released k1 (log_if do_log "Releasing semaphore" name1 s4) in
  lock name1 prefix1 false lock_path1 do_log sems delay1
    (λ _, lock name2 prefix2 false lock_path2 do_log sems delay2 body) s
  = (r, s5)
  ∧ counters s2 !! k1 = Some (default 1 (counters s !! k1) - 1)
  ∧ counters s2 !! k2 = Some (default 1 (counters s !! k2) - 1)
  ∧ trace s5 = trace s3
      ++ (if do_log then [LogDebug "Releasing semaphore" name2] else [])
      ++ [SemRelease k2.1 k2.2]
      ++ (if do_log then [LogDebug "Releasing semaphore" name1] else [])
      ++ [SemRelease k1.1 k1.2].
Proof.
  intros Hne k1 k2 Hf1 Hf2 s1 s2 Hbody Hr s4 s5.
  assert (Hk : k2 ≠ k1) by (unfold k1, k2, key; congruence).
  assert (Hf2' : free s1 k2).
  { unfold free, s1. rewrite counters_log_if, counters_entered_ne by done.
    exact Hf2. }
  assert (Hinner :
    lock name2 prefix2 false lock_path2 do_log sems delay2 body s1 = (r, s4)).
  { rewrite (lock_in_process_run name2 prefix2 false lock_path2 do_log sems
               delay2 body s1 r s3 (or_introl eq_refl) Hf2' Hbody).
    by destruct r. }
  split; [|split; [|split]].
  - rewrite (lock_in_process_run name1 prefix1 false lock_path1 do_log sems
               delay1 _ s r s4 (or_introl eq_refl) Hf1 Hinner).
    by destruct r.
  - unfold s2. rewrite counters_log_if, counters_entered_ne by congruence.
    unfold s1. by rewrite counters_log_if, counters_entered, lookup_insert_eq.
  - unfold s2. rewrite counters_log_if, counters_entered, lookup_insert_eq.
    unfold s1. by rewrite counters_log_if, counters_entered_ne.
  - unfold s5, s4, released. cbn.
    rewrite !trace_log_if. cbn. rewrite !trace_log_if. by rewrite <- !app_assoc.
Qed.

Lemma ext_acquire_blocks path delay s :
  path ∈ held_files s → ext_acquire path delay s = (Blocked, s).
Proof.
  intros H. unfold ext_acquire, mbind, M_bind, get_state. cbn.
  by rewrite decide_True.
Qed.

(** X21: a call that asks for a file lock another holder has takes the
    semaphore of the name first and then waits for the file, holding the
    semaphore: the block is not run and nothing is released. *)
Theorem lock_waits_for_file_holding_semaphore {A} name prefix lock_path do_log
    sems delay (body : lock_object → M state A) s path :
  opt_disable_process_locking (CONF s) = false →
  _get_lock_path name prefix lock_path (opt_lock_path (CONF s)) = inr path →
  let k := key sems name in
  free s k →
  path ∈ held_files s →
  let s1 := log_if do_log "Acquired semaphore" name (entered k s) in
  lock name prefix true lock_path do_log sems delay body s = (Blocked, s1)
  ∧ counters s1 !! k = Some (default 1 (counters s !! k) - 1)
  ∧ held_files s1 = held_files s.
Proof.
  intros Hdis Hp k Hf Hh s1.
  assert (HC : CONF s1 = CONF s) by (unfold s1; by rewrite CONF_log_if, CONF_entered).
  assert (Hh1 : held_files s1 = held_files s)
    by (unfold s1; by rewrite held_files_log_if, held_files_entered).
  split; [|split; [|done]].
  - rewrite lock_enter by done. fold k.
    apply try_finally_blocked.
    rewrite (bind_return _ _ _ _ _ (log_run _ _ _ _)). fold s1.
    apply try_finally_blocked.
    unfold mbind at 1, M_bind at 1, get_state at 1. cbn. rewrite HC, Hdis. cbn.
    rewrite (bind_return _ _ _ _ _ (external_lock_run _ _ _ path s1
               ltac:(by rewrite HC))).
    apply bind_blocked. unfold acquire. apply ext_acquire_blocks. by rewrite Hh1.
  - unfold s1. by rewrite counters_log_if, counters_entered, lookup_insert_eq.
Qed.


(** *** synchronized *)

Lemma counters_record ev s : counters (record ev s) = counters s.
Proof. reflexivity. Qed.

Lemma trace_record ev s : trace (record ev s) = trace s ++ [ev].
Proof. reflexivity. Qed.

(** X22: a function wrapped by [synchronized] (without a file lock, the
    semaphore being free) runs while the semaphore of the name is held; its
    result or its exception is the result or the exception of the wrapper,
    the semaphore is released before the "released" record is written, and
    that record is written on both paths.  The wrapper logs no "Acquired
    semaphore" or "Releasing semaphore" record of [lock]. *)
Theorem synchronized_runs_under_lock {A} name prefix external lock_path sems delay
    f_name (f : M state A) s r s2 :
  external = false ∨ opt_disable_process_locking (CONF s) = true →
  let k := key sems name in
  free s k →
  let s1 := record (LogDebug ("Lock acquired by " +:+ f_name) name) (entered k s) in
  f s1 = (r, s2) →
  r ≠ Blocked →
  synchronized name prefix external lock_path sems delay f_name f s
  = (r, record (LogDebug ("Lock released by " +:+ f_name +:+ " :: held") name)
          (released k s2))
  ∧ counters s1 !! k = Some (default 1 (counters s !! k) - 1)
  ∧ trace s1 = trace s
      ++ match counters s !! k with Some _ => [] | None => [SemCreate k.1 k.2] end
      ++ [SemAcquire k.1 k.2; LogDebug ("Lock acquired by " +:+ f_name) name].
Proof.
  intros Hext k Hf s1 Hrun Hr. split; [|split].
  - unfold synchronized.
    assert (Hb : (emit (LogDebug ("Lock acquired by " +:+ f_name) name);;
                  reified f)
                   (log_if false "Acquired semaphore" name (entered k s))
                 = (match r with
                    | Return a => Return (inr a)
                    | Raise e => Return (inl e)
                    | Blocked => Blocked
                    end, s2)).
    { unfold mbind, M_bind, emit, reified. cbn. fold s1. rewrite Hrun.
      by destruct r. }
    rewrite (lock_in_process_run name prefix external lock_path false sems delay
               _ s _ s2 Hext Hf Hb).
    by destruct r.
  - unfold s1. by rewrite counters_record, counters_entered, lookup_insert_eq.
  - unfold s1. rewrite trace_record, trace_entered. by rewrite <- !app_assoc.
Qed.

(** X23: when the lock cannot be set up (a file lock is asked for and no
    lock directory is configured), the wrapped function is not called: the
    wrapper raises the configuration error, whatever the function is, and
    its last record says "held N/A". *)
Theorem synchronized_without_lock_path {A} name prefix lock_path sems delay
    f_name (f : M state A) s :
  no_lock_path lock_path s →
  opt_disable_process_locking (CONF s) = false →
  let k := key sems name in
  free s k →
  synchronized name prefix true lock_path sems delay f_name f s
  = (Raise (RequiredOptError "lock_path"),
     record (LogDebug ("Lock released by " +:+ f_name +:+ " :: held N/A") name)
       (released k (entered k s))).
Proof.
  intros Hdir Hdis k Hf. unfold synchronized.
  by rewrite (lock_no_lock_path_run name prefix lock_path false sems delay
                _ s Hdir Hdis Hf).
Qed.

(** *** remove_external_lock_file *)

Lemma on_locks_run {A} (m : M state A) s r l' :
  m (locks s) = (r, l') →
  on_locks m s = (r, {| locks := l'; files := files s; info_log := info_log s |}).
Proof. intros H. unfold on_locks. by rewrite H. Qed.

(** X24: [remove_external_lock_file] works under the semaphore of the name
    and never takes the file lock.  With a lock directory and a free
    semaphore it returns normally whether the file exists or not: an
    existing file is removed, also while the file lock is held; a missing
    file leaves one INFO record.  The semaphore is released on both paths
    and the file locks are as before.  When the semaphore is held, the call
    waits and removes nothing. *)
Theorem remove_external_lock_file_removes name prefix lock_path sems s path :
  _get_lock_path name prefix lock_path (opt_lock_path (CONF (locks s)))
    = inr path →
  let k := key sems name in
  (free (locks s) k →
     remove_external_lock_file name prefix lock_path sems s
     = (Return tt,
        {| locks := released k (entered k (locks s));
           files := files s ∖ {[path]};
           info_log := info_log s
             ++ (if decide (path ∈ files s) then [] else [path]) |})
     ∧ held_files (released k (entered k (locks s))) = held_files (locks s)
     ∧ counters (released k (entered k (locks s))) !! k
       = Some (default 1 (counters (locks s) !! k)))
  ∧ (held (locks s) k →
     remove_external_lock_file name prefix lock_path sems s = (Blocked, s)).
Proof.
  intros Hp k. split.
  - intros Hf. split; [|split].
    + unfold remove_external_lock_file.
      rewrite (bind_return _ _ _ _ _
                 (on_locks_run _ s _ _ (internal_lock_run name sems (locks s)))).
      unfold with_.
      erewrite (bind_return (on_locks (enter _)));
        [|apply on_locks_run; cbn; apply (sem_acquire_run _ _ _ Hf)].
      fold k.
      assert (HC : CONF (entered k (locks s)) = CONF (locks s))
        by apply CONF_entered.
      eapply try_finally_return with
        (s' := {| locks := entered k (locks s);
                  files := files s ∖ {[path]};
                  info_log := info_log s
                    ++ (if decide (path ∈ files s) then [] else [path]) |});
        [|done|reflexivity].
      unfold mbind, M_bind. cbn [locks files info_log].
      change (default _semaphores sems, name) with k. rewrite HC, Hp.
      unfold try_except, os_remove. cbn.
      destruct (decide (path ∈ files s)) as [Hin | Hout]; cbn.
      * by rewrite app_nil_r.
      * unfold LOG_info. cbn. do 2 f_equal.
        apply set_eq. intros x. rewrite elem_of_difference, elem_of_singleton.
        split; [intros Hx; split; [done | congruence] | by intros [? _]].
    + apply held_files_entered.
    + unfold released. rewrite counters_record. cbn [counters set_counter].
      rewrite lookup_insert_eq, counters_entered, lookup_insert_eq. cbn.
      f_equal. lia.
  - intros Hh. unfold k in Hh. unfold remove_external_lock_file.
    rewrite (bind_return _ _ _ _ _
               (on_locks_run _ s _ _ (internal_lock_run name sems (locks s)))).
    rewrite (got_held _ _ Hh). unfold with_.
    erewrite (bind_blocked (on_locks (enter _)));
      [|apply on_locks_run; cbn; apply (sem_acquire_blocks _ _ _ Hh)].
    by destruct s.
Qed.


(** *** The theorems on concrete states *)


Lemma lock_in_process_witness :
  ∃ s3, lock (A:=unit) "x" None true None true None (1 # 100)
          (λ _, raise (OtherException "ValueError" "boom")) locking_disabled
        = (Raise (OtherException "ValueError" "boom"), s3)
        ∧ trace s3 =
            [SemCreate 0 "x"; SemAcquire 0 "x"; LogDebug "Acquired semaphore" "x";
             LogDebug "Releasing semaphore" "x"; SemRelease 0 "x"].
Proof.
  eexists.
  destruct (lock_in_process (A:=unit) "x" None true None true None (1 # 100)
              (λ _, raise (OtherException "ValueError" "boom")) locking_disabled
              (Raise (OtherException "ValueError" "boom")) _
              (or_intror eq_refl) I eq_refl ltac:(discriminate))
    as (Hrun & _ & _ & Htrace & _).
  split; [exact Hrun | exact Htrace].
Defined.

Lemma lock_external_disabled_witness :
  lock (A:=unit) "x" None true None true None (1 # 100) (λ _, mret tt)
    locking_disabled
  = lock "x" None false None true None (1 # 100) (λ _, mret tt) locking_disabled.
Proof.
  exact (lock_external_disabled "x" None None true None (1 # 100) (λ _, mret tt)
           locking_disabled eq_refl).
Defined.

Lemma lock_is_not_reentrant_witness :
  ∃ s1, lock (A:=unit) "x" None false None false None (1 # 100)
          (λ _, lock "x" None false None false None (1 # 100) (λ _, mret tt))
          unconfigured
        = (Blocked, s1)
        ∧ counters s1 !! (0%nat, "x") = Some 0.
Proof.
  eexists.
  exact (lock_is_not_reentrant (A:=unit) "x" None false None false None (1 # 100)
           None false None false (1 # 100) (λ _, mret tt) unconfigured
           (or_introl eq_refl) (or_introl eq_refl)).
Defined.

Lemma lock_nests_with_other_name_witness :
  ∃ s5, lock (A:=unit) "x" None false None false None (1 # 100)
          (λ _, lock "y" None false None false None (1 # 100) (λ _, mret tt))
          unconfigured
        = (Return tt, s5)
        ∧ trace s5 =
            [SemCreate 0 "x"; SemAcquire 0 "x"; SemCreate 0 "y"; SemAcquire 0 "y";
             SemRelease 0 "y"; SemRelease 0 "x"].
Proof.
  eexists.
  destruct (lock_nests_with_other_name (A:=unit) "x" "y" None None None None
              false None (1 # 100) (1 # 100) (λ _, mret tt) unconfigured
              (Return tt) _ ltac:(discriminate) I I eq_refl ltac:(discriminate))
    as (Hrun & _ & _ & Htrace).
  split; [exact Hrun | exact Htrace].
Defined.

Lemma lock_waits_for_file_holding_semaphore_witness :
  ∃ s1, lock (A:=unit) "x" None true None false None (1 # 100) (λ _, mret tt)
          file_busy
        = (Blocked, s1)
        ∧ counters s1 !! (0%nat, "x") = Some 0.
Proof.
  eexists.
  destruct (lock_waits_for_file_holding_semaphore (A:=unit) "x" None None false
              None (1 # 100) (λ _, mret tt) file_busy "/var/lock/x"
              eq_refl eq_refl I ltac:(vm_compute; reflexivity))
    as (Hrun & Hc & _).
  split; [exact Hrun | exact Hc].
Defined.

Lemma synchronized_runs_under_lock_witness :
  ∃ s3, synchronized (A:=unit) "x" None false None None (1 # 100) "foo"
          (raise (OtherException "ValueError" "boom")) unconfigured
        = (Raise (OtherException "ValueError" "boom"), s3)
        ∧ trace s3 =
            [SemCreate 0 "x"; SemAcquire 0 "x"; LogDebug "Lock acquired by foo" "x";
             SemRelease 0 "x"; LogDebug "Lock released by foo :: held" "x"].
Proof.
  eexists.
  destruct (synchronized_runs_under_lock (A:=unit) "x" None false None None
              (1 # 100) "foo" (raise (OtherException "ValueError" "boom"))
              unconfigured (Raise (OtherException "ValueError" "boom")) _
              (or_introl eq_refl) I eq_refl ltac:(discriminate))
    as (Hrun & _ & _).
  split; [exact Hrun | reflexivity].
Defined.

Lemma synchronized_without_lock_path_witness :
  ∃ s3, synchronized (A:=unit) "x" None true None None (1 # 100) "foo"
          (mret tt) unconfigured
        = (Raise (RequiredOptError "lock_path"), s3)
        ∧ trace s3 =
            [SemCreate 0 "x"; SemAcquire 0 "x"; SemRelease 0 "x";
             LogDebug "Lock released by foo :: held N/A" "x"].
Proof.
  eexists. split.
  - exact (synchronized_without_lock_path (A:=unit) "x" None None None (1 # 100)
             "foo" (mret tt) unconfigured (or_introl eq_refl) eq_refl I).
  - reflexivity.
Defined.

Lemma remove_external_lock_file_removes_witness :
  ∃ s', remove_external_lock_file "x" None None None lock_file_present
        = (Return tt, s')
        ∧ files s' = files lock_file_present ∖ {["/var/lock/x"]}
        ∧ held_files (locks s') = held_files file_busy.
Proof.
  eexists.
  destruct (remove_external_lock_file_removes "x" None None None
              lock_file_present "/var/lock/x" eq_refl) as [H _].
  destruct (H I) as (Hrun & Hh & _).
  split; [exact Hrun | split; [reflexivity | exact Hh]].
Defined.

End lockutils_more.

(** ** More about processutils *)
Module processutils_more.
Import processutils processutils_facts.

Section with_world.
Context {W proc : Type} (rt : @runtime W proc).
Local Abbreviation St := (@St W).
Local Abbreviation locals := (@locals W proc).
Implicit Types (l : locals) (s : St) (e : exn) (kw : @Kwargs W proc).

Lemma weigh_app wt (t1 t2 : list event) :
  weigh wt (t1 ++ t2) = (weigh wt t1 + weigh wt t2)%nat.
Proof. induction t1 as [|ev t1 IH]; cbn; [done|]. rewrite IH. lia. Qed.

(** The [except] block, run. *)
Lemma handler_run l m e s :
  handler rt l m e s
  = (match m with O => Raise e | S _ => Return Continues end,
     {| world := match m with
                 | O => world s
                 | S _ => if delay_on_retry l
                          then (randint rt 20 200 (world s)).2 else world s
                 end;
        trace := trace s ++ handler_events rt l m e (world s) |}).
Proof.
  unfold handler, handler_events, logs_details, when, LOG_log, time_sleep,
    perform, emit, raise, mbind, M_bind, mret, M_ret.
  destruct (opt_eqb (log_errors l) (Some LOG_ALL_ERRORS)
            || opt_eqb (log_errors l) (Some LOG_FINAL_ERROR) && Nat.eqb m 0);
    destruct m as [|m]; cbn.
  all: try (destruct (delay_on_retry l); cbn).
  all: destruct e; cbn.
  all: try (destruct (randint rt 20 200 (world s)) as [r w]; cbn).
  all: rewrite <- ?app_assoc; cbn; try reflexivity.
  all: destruct s; cbn; by rewrite ?app_nil_r.
Qed.


Lemma iteration_run l m s :
  iteration rt l m s
  = match attempt rt l s with
    | (Return v, s1) => (Return (Returns v), slept s1)
    | (Raise e, s1) =>
        if caught e then
          (match m with O => Raise e | S _ => Return Continues end,
           slept (handler rt l m e s1).2)
        else (Raise e, slept s1)
    | (Blocked, s1) => (Blocked, s1)
    end.
Proof.
  unfold iteration, try_finally, try_except.
  destruct (attempt rt l s) as [[v|e|] s1] eqn:Ha.
  - by rewrite (bind_return _ _ _ _ _ Ha).
  - rewrite (bind_raise _ _ _ _ _ Ha). destruct (caught e); [|done].
    rewrite handler_run. by destruct m.
  - by rewrite (bind_blocked _ _ _ _ Ha).
Qed.

(** The events of one attempt are those of the [try] block, and its two
    log records show [sanitized_cmd]. *)
Lemma attempt_events l s r s' :
  attempt rt l s = (r, s') →
  ∃ evs, trace s' = trace s ++ evs
         ∧ Forall (λ ev, from_attempt ev = true ∧ logs_masked l ev) evs.
Proof.
  unfold attempt, subprocess_Popen, LOG_log, call, perform, emit, get, raise,
    mbind, M_bind, mret, M_ret; cbn.
  repeat match goal with
  | |- context [match ?x with _ => _ end] =>
      lazymatch x with
      | context [match _ with _ => _ end] => fail
      | _ => destruct x; cbn
      end
  end.
  all: intros [= <- <-]; cbn; rewrite <- ?app_assoc; cbn.
  all: eexists; (split; [reflexivity|]); by repeat constructor.
Qed.

(** *** Properties of every event of a run *)
Section every_event.
Variable (l : locals) (P : event → Prop).
Hypothesis P_attempt : ∀ ev, from_attempt ev = true → logs_masked l ev → P ev.
Hypothesis P_handler : ∀ m e w, Forall P (handler_events rt l m e w).
Hypothesis P_sleep : P (Sleep 0).

Lemma iteration_every m s r s' :
  iteration rt l m s = (r, s') →
  ∃ evs, trace s' = trace s ++ evs ∧ Forall P evs.
Proof.
  rewrite iteration_run. destruct (attempt rt l s) as [r1 s1] eqn:Ha.
  destruct (attempt_events _ _ _ _ Ha) as (evs & Ht & Hall).
  assert (HP : Forall P evs).
  { eapply Forall_impl; [exact Hall|]. intros ev [H1 H2]. by apply P_attempt. }
  destruct r1 as [v|e|].
  - intros [= <- <-]. exists (evs ++ [Sleep 0]). cbn.
    rewrite Ht, <- app_assoc. split; [done|].
    apply Forall_app. split; [done | by repeat constructor].
  - destruct (caught e).
    + rewrite handler_run. cbn. intros [= <- <-]. cbn.
      exists (evs ++ handler_events rt l m e (world s1) ++ [Sleep 0]).
      rewrite Ht, <- !app_assoc. split; [done|].
      apply Forall_app. split; [done|]. apply Forall_app.
      split; [apply P_handler | by repeat constructor].
    + intros [= <- <-]. exists (evs ++ [Sleep 0]). cbn.
      rewrite Ht, <- app_assoc. split; [done|].
      apply Forall_app. split; [done | by repeat constructor].
  - intros [= <- <-]. by exists evs.
Qed.

Lemma retry_loop_every n : ∀ s r s',
  retry_loop rt l n s = (r, s') →
  ∃ evs, trace s' = trace s ++ evs ∧ Forall P evs.
Proof.
  induction n as [|n IH]; intros s r s' H.
  - injection H as <- <-. exists []. by rewrite app_nil_r.
  - rewrite retry_loop_unfold in H. unfold mbind, M_bind in H.
    destruct (iteration rt l n s) as [r1 s1] eqn:Hi.
    destruct (iteration_every _ _ _ _ Hi) as (evs & Ht & Hall).
    destruct r1 as [[v|]|e|]; try (injection H as <- <-; by exists evs).
    destruct (IH _ _ _ H) as (evs' & Ht' & Hall').
    exists (evs ++ evs'). rewrite Ht', Ht, <- app_assoc.
    split; [done | by apply Forall_app].
Qed.
End every_event.



(** X2: when [random.randint(20, 200)] keeps within its bounds, every
    [time.sleep] of a run is either the [sleep(0)] of [finally] or a pause
    between 0.2 and 2 seconds. *)
Theorem execute_sleeps_are_bounded cmd0 kw l s r s' :
  (∀ w, 20 ≤ (randint rt 20 200 w).1 ≤ 200) →
  prelude rt cmd0 kw = inr l →
  execute rt cmd0 kw s = (r, s') →
  ∃ evs, trace s' = trace s ++ evs ∧ Forall bounded_sleep evs.
Proof.
  intros Hr Hp He. rewrite (execute_prelude rt _ _ _ s Hp) in He.
  eapply (retry_loop_every l bounded_sleep); [| | | exact He].
  - by intros [| | | | | |].
  - intros m e w. unfold handler_events. apply Forall_app. split.
    + destruct (logs_details l m); by repeat constructor.
    + destruct m; [by repeat constructor|].
      destruct (delay_on_retry l); [|by repeat constructor].
      constructor; [exact I|]. constructor; [|constructor].
      right. specialize (Hr w). unfold Qle. cbn. lia.
  - by left.
Qed.

(** *** Counting the events of a run *)
Section counting.
Variable (l : locals) (wt : event → nat) (wa wr wf : nat).
Hypothesis wt_attempt : ∀ s r s' evs,
  attempt rt l s = (r, s') → trace s' = trace s ++ evs → weigh wt evs = wa.
Hypothesis wt_retry : ∀ m e w, weigh wt (handler_events rt l (S m) e w) = wr.
Hypothesis wt_final : ∀ e w, weigh wt (handler_events rt l 0 e w) = wf.

Local Abbreviation ws := (wt (Sleep 0)).

Lemma attempt_grows s r s' :
  attempt rt l s = (r, s') → ∃ evs, trace s' = trace s ++ evs.
Proof.
  intros H. destruct (attempt_events _ _ _ _ H) as (evs & Ht & _). by exists evs.
Qed.

(** A failed attempt that is retried. *)
Lemma retried_weight m s :
  fails rt l s →
  ∃ evs, iteration rt l (S m) s = (Return Continues, (iteration rt l (S m) s).2)
         ∧ trace (iteration rt l (S m) s).2 = trace s ++ evs
         ∧ weigh wt evs = (wa + wr + ws)%nat.
Proof.
  intros (e & s1 & Ha & Hc). rewrite iteration_run, Ha, Hc, handler_run. cbn.
  destruct (attempt_grows _ _ _ Ha) as (evs & Ht).
  exists (evs ++ handler_events rt l (S m) e (world s1) ++ [Sleep 0]).
  split; [done|]. rewrite Ht, <- !app_assoc. split; [done|].
  rewrite !weigh_app, (wt_attempt _ _ _ _ Ha Ht), wt_retry. cbn. lia.
Qed.

Lemma prefix_weight k : ∀ n s,
  (k < n)%nat →
  (∀ i, (i < k)%nat → fails rt l (state_before rt l n i s)) →
  ∃ evs, trace (state_before rt l n k s) = trace s ++ evs
         ∧ weigh wt evs = (k * (wa + wr + ws))%nat.
Proof.
  induction k as [|k IH]; intros n s Hk Hf.
  - exists []. cbn. by rewrite app_nil_r.
  - destruct n as [|[|n]]; [lia | lia |].
    destruct (retried_weight n s (Hf 0%nat ltac:(lia))) as (evs & Hi & Ht & Hw).
    destruct (IH (S n) (iteration rt l (S n) s).2 ltac:(lia)) as (evs' & Ht' & Hw').
    { intros i Hi'. exact (Hf (S i) ltac:(lia)). }
    exists (evs ++ evs'). cbn [state_before].
    rewrite Ht', Ht, <- app_assoc, weigh_app, Hw, Hw'. split; [done | lia].
Qed.

(** All [n] attempts fail. *)
Lemma exhausted_weight n s r s' :
  (1 ≤ n)%nat →
  (∀ i, (i < n)%nat → fails rt l (state_before rt l n i s)) →
  retry_loop rt l n s = (r, s') →
  ∃ evs, trace s' = trace s ++ evs
         ∧ weigh wt evs = ((n - 1) * (wa + wr + ws) + (wa + wf + ws))%nat.
Proof.
  intros Hn Hf Hl.
  destruct (prefix_weight (n - 1) n s ltac:(lia)) as (evs & Ht & Hw).
  { intros i Hi. apply Hf. lia. }
  destruct (retry_loop_prefix rt l (n - 1) n s ltac:(lia)) as [Hl' _].
  { intros i Hi. apply Hf. lia. }
  rewrite Hl' in Hl. replace (n - (n - 1))%nat with 1%nat in Hl by lia.
  destruct (Hf (n - 1)%nat ltac:(lia)) as (e & s1 & Ha & Hc).
  rewrite retry_loop_unfold in Hl. unfold mbind, M_bind in Hl.
  rewrite iteration_run, Ha, Hc, handler_run in Hl. cbn in Hl.
  injection Hl as <- <-. cbn.
  destruct (attempt_grows _ _ _ Ha) as (evs1 & Ht1).
  exists (evs ++ evs1 ++ handler_events rt l 0 e (world s1) ++ [Sleep 0]).
  rewrite Ht1, Ht, <- !app_assoc. split; [done|].
  rewrite !weigh_app, Hw, (wt_attempt _ _ _ _ Ha Ht1), wt_final. cbn. lia.
Qed.

(** Attempt number [k] ends the loop without being caught. *)
Lemma ended_weight n k s r1 s_k :
  (k < n)%nat →
  (∀ i, (i < k)%nat → fails rt l (state_before rt l n i s)) →
  attempt rt l (state_before rt l n k s) = (r1, s_k) →
  (∀ e, r1 = Raise e → caught e = false) →
  ∃ evs, trace (slept s_k) = trace s ++ evs
         ∧ weigh wt evs = (k * (wa + wr + ws) + (wa + ws))%nat.
Proof.
  intros Hk Hf Ha Hr.
  destruct (prefix_weight k n s Hk Hf) as (evs & Ht & Hw).
  destruct (attempt_grows _ _ _ Ha) as (evs1 & Ht1).
  exists (evs ++ evs1 ++ [Sleep 0]). cbn.
  rewrite Ht1, Ht, <- !app_assoc. split; [done|].
  rewrite !weigh_app, Hw, (wt_attempt _ _ _ _ Ha Ht1). cbn. lia.
Qed.
End counting.


Lemma attempt_weightless (wt : event → nat) l s r s' evs :
  (∀ ev, from_attempt ev = true → wt ev = 0%nat) →
  attempt rt l s = (r, s') → trace s' = trace s ++ evs → weigh wt evs = 0%nat.
Proof.
  intros Hwt Ha Ht. destruct (attempt_events _ _ _ _ Ha) as (evs0 & Ht0 & Hall).
  rewrite Ht0 in Ht. apply app_inv_head in Ht. subst evs0. clear -Hwt Hall.
  induction Hall as [|ev evs [Hev _] _ IH]; cbn; [done|].
  rewrite (Hwt ev Hev), IH. done.
Qed.

Lemma execute_returns cmd0 kw l n k s v s_k :
  prelude rt cmd0 kw = inr l →
  default 1 (kw_attempts kw) = Z.of_nat n →
  (k < n)%nat →
  (∀ i, (i < k)%nat → fails rt l (state_before rt l n i s)) →
  attempt rt l (state_before rt l n k s) = (Return v, s_k) →
  execute rt cmd0 kw s = (Return (Some v), slept s_k).
Proof.
  intros Hp Hn Hk Hf Ha.
  rewrite (execute_prelude rt _ _ _ s Hp), (attempts_nat rt _ _ _ _ Hp Hn).
  destruct (retry_loop_prefix rt l k n s Hk Hf) as [-> _].
  replace (n - k)%nat with (S (n - k - 1)) by lia. by apply retry_loop_returns.
Qed.

(** X3: [log_errors] decides how many records with the details of an error
    are logged.  When all [n] attempts fail: [n] records with
    [LOG_ALL_ERRORS], one with [LOG_FINAL_ERROR], none without
    [log_errors].  When an attempt returns after [k] failed ones: [k]
    records with [LOG_ALL_ERRORS] and none otherwise. *)
Theorem execute_error_details_by_policy cmd0 kw l n s :
  prelude rt cmd0 kw = inr l →
  default 1 (kw_attempts kw) = Z.of_nat n →
  (1 ≤ n)%nat →
  let all := opt_eqb (kw_log_errors kw) (Some LOG_ALL_ERRORS) in
  let final := opt_eqb (kw_log_errors kw) (Some LOG_FINAL_ERROR) in
  (∀ r s',
     (∀ i, (i < n)%nat → fails rt l (state_before rt l n i s)) →
     execute rt cmd0 kw s = (r, s') →
     ∃ evs, trace s' = trace s ++ evs
            ∧ weigh detail_weight evs
              = if all then n else if final then 1%nat else 0%nat)
  ∧ (∀ k v s_k,
       (k < n)%nat →
       (∀ i, (i < k)%nat → fails rt l (state_before rt l n i s)) →
       attempt rt l (state_before rt l n k s) = (Return v, s_k) →
       execute rt cmd0 kw s = (Return (Some v), slept s_k)
       ∧ ∃ evs, trace (slept s_k) = trace s ++ evs
                ∧ weigh detail_weight evs = if all then k else 0%nat).
Proof.
  intros Hp Hn Hn1 all final.
  destruct (prelude_locals rt _ _ _ Hp) as (_ & _ & _ & _ & _ & _ & Hle & _).
  assert (Hwa : ∀ s r s' evs, attempt rt l s = (r, s') →
                 trace s' = trace s ++ evs → weigh detail_weight evs = 0%nat).
  { intros s0 r0 s0' evs0 Ha0 Ht0. eapply attempt_weightless; [|exact Ha0|exact Ht0].
    intros [lv []| | | | | |]; cbn; congruence. }
  assert (Hwr : ∀ m e w, weigh detail_weight (handler_events rt l (S m) e w)
                         = if all then 1%nat else 0%nat).
  { intros m e w. unfold handler_events, logs_details. rewrite Hle. fold all.
    cbn [Nat.eqb]. rewrite andb_false_r, orb_false_r, weigh_app.
    destruct all; destruct (delay_on_retry l); by destruct e. }
  assert (Hwf : ∀ e w, weigh detail_weight (handler_events rt l 0 e w)
                       = if all || final then 1%nat else 0%nat).
  { intros e w. unfold handler_events, logs_details. rewrite Hle. fold all final.
    cbn [Nat.eqb]. rewrite andb_true_r, weigh_app.
    destruct (all || final); by destruct e. }
  split.
  - intros r s' Hf He.
    rewrite (execute_prelude rt _ _ _ s Hp), (attempts_nat rt _ _ _ _ Hp Hn) in He.
    destruct (exhausted_weight l detail_weight _ _ _ Hwa Hwr Hwf n s r s' Hn1 Hf He)
      as (evs & Ht & Hw).
    exists evs. split; [done|]. rewrite Hw. cbn.
    destruct all; cbn; [lia|]. destruct final; lia.
  - intros k v s_k Hk Hf Ha.
    split; [by eapply execute_returns|].
    destruct (ended_weight l detail_weight _ _ Hwa Hwr n k s _ s_k Hk Hf Ha)
      as (evs & Ht & Hw); [done|].
    exists evs. split; [done|]. rewrite Hw. cbn. destruct all; lia.
Qed.

(** X4: [time.sleep] is called once per attempt in [finally], and once more
    before each retry when [delay_on_retry] is true (the default): when all
    [n] attempts fail there are [n] calls without and [2n - 1] calls with
    [delay_on_retry], so that no pause follows the last failure; a run
    that returns at attempt number [k] has [k + 1], respectively [2k + 1],
    calls. *)
Theorem execute_sleeps_between_attempts cmd0 kw l n s :
  prelude rt cmd0 kw = inr l →
  default 1 (kw_attempts kw) = Z.of_nat n →
  (1 ≤ n)%nat →
  let delay := default true (kw_delay_on_retry kw) in
  (∀ r s',
     (∀ i, (i < n)%nat → fails rt l (state_before rt l n i s)) →
     execute rt cmd0 kw s = (r, s') →
     ∃ evs, trace s' = trace s ++ evs
            ∧ weigh sleep_weight evs
              = if delay then (2 * n - 1)%nat else n)
  ∧ (∀ k v s_k,
       (k < n)%nat →
       (∀ i, (i < k)%nat → fails rt l (state_before rt l n i s)) →
       attempt rt l (state_before rt l n k s) = (Return v, s_k) →
       execute rt cmd0 kw s = (Return (Some v), slept s_k)
       ∧ ∃ evs, trace (slept s_k) = trace s ++ evs
                ∧ weigh sleep_weight evs
                  = if delay then (2 * k + 1)%nat else (k + 1)%nat).
Proof.
  intros Hp Hn Hn1 delay.
  assert (Hd : delay_on_retry l = delay).
  { revert Hp. unfold prelude. destruct (kw_unknown kw);
      [|by destruct (default _ (kw_check_exit_code kw))].
    destruct (default _ (kw_check_exit_code kw)).
    all: match goal with
         | |- (if ?c then _ else _) = _ → _ => destruct c; [done|]
         end.
    all: match goal with
         | |- context [match ?x with inl _ => _ | inr _ => _ end] =>
             destruct x; [done|]
         end.
    all: by intros [= <-]. }
  assert (Hwa : ∀ s r s' evs, attempt rt l s = (r, s') →
                 trace s' = trace s ++ evs → weigh sleep_weight evs = 0%nat).
  { intros s0 r0 s0' evs0 Ha0 Ht0. eapply attempt_weightless; [|exact Ha0|exact Ht0].
    intros [lv []| | | | | |]; cbn; congruence. }
  assert (Hwr : ∀ m e w, weigh sleep_weight (handler_events rt l (S m) e w)
                         = if delay then 1%nat else 0%nat).
  { intros m e w. unfold handler_events. rewrite Hd, weigh_app.
    destruct (logs_details l (S m)); destruct delay; by destruct e. }
  assert (Hwf : ∀ e w, weigh sleep_weight (handler_events rt l 0 e w) = 0%nat).
  { intros e w. unfold handler_events. rewrite weigh_app.
    destruct (logs_details l 0); by destruct e. }
  split.
  - intros r s' Hf He.
    rewrite (execute_prelude rt _ _ _ s Hp), (attempts_nat rt _ _ _ _ Hp Hn) in He.
    destruct (exhausted_weight l sleep_weight _ _ _ Hwa Hwr Hwf n s r s' Hn1 Hf He)
      as (evs & Ht & Hw).
    exists evs. split; [done|]. rewrite Hw. cbn. destruct delay; lia.
  - intros k v s_k Hk Hf Ha.
    split; [by eapply execute_returns|].
    destruct (ended_weight l sleep_weight _ _ Hwa Hwr n k s _ s_k Hk Hf Ha)
      as (evs & Ht & Hw); [done|].
    exists evs. split; [done|]. rewrite Hw. cbn. destruct delay; lia.
Qed.


(** *** Bounds and edges *)





(** X6: with [attempts] zero or negative the loop body never runs:
    [execute] returns [None] and has done nothing, and [trycmd], which
    unpacks the result, raises [TypeError]. *)
Theorem execute_without_attempts cmd0 dw kw l s :
  prelude rt cmd0 kw = inr l →
  default 1 (kw_attempts kw) ≤ 0 →
  execute rt cmd0 kw s = (Return None, s)
  ∧ trycmd rt cmd0 dw kw s
    = (Raise (OtherException "TypeError" "'NoneType' object is not iterable"), s).
Proof.
  intros Hp Hn.
  assert (He : execute rt cmd0 kw s = (Return None, s)).
  { rewrite (execute_prelude rt _ _ _ s Hp).
    destruct (prelude_locals rt _ _ _ Hp) as (_ & -> & _).
    by replace (Z.to_nat (default 1 (kw_attempts kw))) with 0%nat by lia. }
  split; [done|]. unfold trycmd, try_except.
  unfold mbind at 1, M_bind at 1. by rewrite (bind_return _ _ _ _ _ He).
Qed.

(** X7: [run_as_root] changes nothing when it is false, when the effective
    user is root, or when the platform has no [geteuid]: the command is
    spawned as given and [root_helper] is not looked at, be it empty. *)
Theorem run_as_root_not_needed cmd0 kw :
  kw_unknown kw = [] →
  valid_log_errors (kw_log_errors kw) →
  default false (kw_run_as_root kw) = false
  ∨ geteuid rt = Some 0 ∨ geteuid rt = None →
  ∃ l, prelude rt cmd0 kw = inr l ∧ cmd l = cmd0
       ∧ shell l = default false (kw_shell kw).
Proof.
  intros Hu Hv Hr.
  pose proof (prelude_checked rt cmd0 kw Hu Hv _ eq_refl) as H.
  assert (Hc : default false (kw_run_as_root kw)
               && match geteuid rt with
                  | Some uid => negb (uid =? 0) | None => false
                  end = false).
  { destruct Hr as [-> | [-> | ->]]; [done | | ]; by rewrite andb_false_r. }
  by rewrite Hc in H.
Qed.

(** X8: with [run_as_root] for a user who is not root and a non-empty
    helper, two errors are raised before anything is spawned or logged: with
    [shell=True] and no command at all, the [IndexError] of [cmd[0]]; with
    [shell=False], whatever [shlex.split(root_helper)] raises. *)
Theorem run_as_root_helper_errors cmd0 kw s uid :
  kw_unknown kw = [] →
  valid_log_errors (kw_log_errors kw) →
  kw_run_as_root kw = Some true →
  geteuid rt = Some uid →
  uid ≠ 0 →
  default "" (kw_root_helper kw) ≠ "" →
  (kw_shell kw = Some true → cmd0 = [] →
     execute rt cmd0 kw s
     = (Raise (OtherException "IndexError" "tuple index out of range"), s))
  ∧ (default false (kw_shell kw) = false →
     ∀ e, shlex_split rt (default "" (kw_root_helper kw)) = inl e →
          execute rt cmd0 kw s = (Raise e, s)).
Proof.
  intros Hu Hv Hroot Hg Huid Hh.
  pose proof (prelude_checked rt cmd0 kw Hu Hv _ eq_refl) as H.
  rewrite Hroot, Hg in H. cbn [default] in H.
  assert (Hneq : negb (uid =? 0) = true)
    by (apply negb_true_iff; by apply Z.eqb_neq).
  assert (Hne : nonempty (default "" (kw_root_helper kw)) = true).
  { destruct (nonempty _) eqn:E; [done|]. by apply nonempty_false in E. }
  rewrite Hneq, Hne in H. cbn [andb negb] in H.
  split.
  - intros Hs ->. rewrite Hs in H. cbn in H. by apply execute_prelude_error.
  - intros Hs e He. rewrite Hs, He in H. by apply execute_prelude_error.
Qed.

(** X9: an attempt stops at its first error.  When [Popen] raises, no
    callback is called and nothing is communicated; when [on_execute]
    raises, the process that was started is neither communicated with nor
    reported to [on_completion]; when [communicate] raises, stdin is not
    closed, the return code is not logged and [on_completion] is not
    called. *)
Theorem attempt_stops_at_first_error l s :
  let started :=
    [Log (loglevel l) (Running (sanitized_cmd l)); Spawn (spawn_args rt l)] in
  (∀ e w1,
     Popen rt (spawn_args rt l) (world s) = (inl e, w1) →
     attempt rt l s = (Raise e, {| world := w1; trace := trace s ++ started |}))
  ∧ (∀ p w1 f e w2,
       Popen rt (spawn_args rt l) (world s) = (inr p, w1) →
       on_execute l = Some f →
       f p w1 = (Some e, w2) →
       attempt rt l s
       = (Raise e, {| world := w2; trace := trace s ++ started ++ [OnExecute] |}))
  ∧ (∀ p w1 w2 e w3,
       Popen rt (spawn_args rt l) (world s) = (inr p, w1) →
       call_opt (on_execute l) p w1 = (None, w2) →
       communicate rt p (process_input l) w2 = (inl e, w3) →
       attempt rt l s
       = (Raise e,
          {| world := w3;
             trace := trace s ++ started
               ++ match on_execute l with Some _ => [OnExecute] | None => [] end
               ++ [Communicate (process_input l)] |})).
Proof.
  intros started. split; [|split].
  - intros e w1 Hp.
    unfold attempt, subprocess_Popen, LOG_log, call, perform, emit, get, raise,
      mbind, M_bind, mret, M_ret. cbn.
    rewrite Hp. cbn. by rewrite <- !app_assoc.
  - intros p w1 f e w2 Hp Hf He.
    rewrite (attempt_on_execute_raises rt _ _ _ _ _ _ _ Hp Hf He). done.
  - intros p w1 w2 e w3 Hp Hf Hc. revert Hf. unfold call_opt.
    unfold attempt, subprocess_Popen, LOG_log, call, perform, emit, get, raise,
      mbind, M_bind, mret, M_ret. cbn.
    rewrite Hp. cbn. destruct (on_execute l) as [f|]; cbn.
    + intros ->. cbn. rewrite Hc. cbn. by rewrite <- !app_assoc.
    + intros [= <-]. rewrite Hc. cbn. by rewrite <- !app_assoc.
Qed.

(** X10: [trycmd] turns only [ProcessExecutionError] into a result: every
    other exception of [execute] (an [OSError] of a failed spawn, an
    argument error, an exception of a callback) is raised by [trycmd] as
    it is, whatever [discard_warnings] says. *)
Theorem trycmd_propagates_other_errors args0 dw kw s e s' :
  execute rt args0 kw s = (Raise e, s') →
  is_ProcessExecutionError e = false →
  trycmd rt args0 dw kw s = (Raise e, s').
Proof.
  intros He Hn. unfold trycmd, try_except.
  unfold mbind at 1, M_bind at 1. rewrite (bind_raise _ _ _ _ _ He).
  by rewrite Hn.
Qed.

End with_world.

(** *** ssh_execute *)
Section with_ssh.
Context {W proc chan : Type} (rt : @runtime W proc) (enc : encoders)
  (ssh : @ssh_client W chan).
Implicit Types (s : @SshSt W).

Lemma ssh_execute_run cmd input env check binary s out err status w' :
  env_truthy env = false →
  input_truthy input = false →
  ssh_runs ssh cmd s out err status w' →
  ssh_execute rt enc ssh cmd input env check binary s
  = (if negb (status =? -1) && (check && negb (status =? 0)) then
       Raise (ProcessExecutionError (Some (ssh_masked rt out))
                (Some (ssh_masked rt err)) (Some status)
                (Some (mask_password rt (native rt cmd))) None)
     else if binary then
       if negb (PY3 rt) then
         match encode_if_unicode enc (ssh_masked rt out) with
         | inl e => Raise e
         | inr o =>
             match encode_if_unicode enc (ssh_masked rt err) with
             | inl e => Raise e
             | inr e' => Return (o, e')
             end
         end
       else Return (Bytes (fsencode enc (payload (ssh_masked rt out))),
                    Bytes (fsencode enc (payload (ssh_masked rt err))))
     else Return (ssh_masked rt out, ssh_masked rt err),
     ssh_ran rt cmd status w' s).
Proof.
  intros He Hi (ch & w1 & w2 & w3 & w4 & H1 & H2 & H3 & H4 & H5).
  unfold ssh_execute, ssh_ran, ssh_masked, ssh_perform, ssh_emit, raise,
    mbind, M_bind, mret, M_ret. cbn.
  rewrite He, Hi. cbn. rewrite H1. cbn. rewrite H2. cbn. rewrite H3. cbn.
  rewrite H4. cbn. rewrite H5. cbn.
  destruct (status =? -1); cbn.
  - destruct binary; cbn; [|by rewrite <- !app_assoc].
    destruct (PY3 rt); cbn; [by rewrite <- !app_assoc|].
    destruct (encode_if_unicode enc _); cbn; [by rewrite <- !app_assoc|].
    destruct (encode_if_unicode enc _); cbn; by rewrite <- !app_assoc.
  - destruct (check && negb (status =? 0)); cbn; [by rewrite <- !app_assoc|].
    destruct binary; cbn; [|by rewrite <- !app_assoc].
    destruct (PY3 rt); cbn; [by rewrite <- !app_assoc|].
    destruct (encode_if_unicode enc _); cbn; [by rewrite <- !app_assoc|].
    destruct (encode_if_unicode enc _); cbn; by rewrite <- !app_assoc.
Qed.


(** X11: [ssh_execute] refuses an environment and an input before it runs
    anything: a non-empty [addl_env], and otherwise a non-empty
    [process_input], raises [InvalidArgumentError]; [exec_command] is not
    called, and only the masked command has been logged. *)
Theorem ssh_execute_rejects_env_and_input cmd input env check binary s :
  (env_truthy env = true →
     ssh_execute rt enc ssh cmd input env check binary s
     = (Raise (InvalidArgumentError "Environment not supported over SSH"),
        ssh_rejected rt cmd s))
  ∧ (env_truthy env = false → input_truthy input = true →
     ssh_execute rt enc ssh cmd input env check binary s
     = (Raise (InvalidArgumentError "process_input not supported over SSH"),
        ssh_rejected rt cmd s)).
Proof.
  split.
  - intros He. unfold ssh_execute, ssh_rejected, ssh_emit, raise,
      mbind, M_bind. cbn. by rewrite He.
  - intros He Hi. unfold ssh_execute, ssh_rejected, ssh_emit, raise,
      mbind, M_bind. cbn. by rewrite He, Hi.
Qed.

(** X12: after a run over SSH, [ssh_execute] raises [ProcessExecutionError]
    exactly when [check_exit_code] is true and the exit status is neither 0
    nor -1 (no status returned); the error carries the status, the masked
    output and the masked command.  In every other case a text-mode call
    returns the output, and the output it returns is masked as well. *)
Theorem ssh_execute_checks_exit_status cmd input env check s out err status w' :
  env_truthy env = false →
  input_truthy input = false →
  ssh_runs ssh cmd s out err status w' →
  (check = true → status ≠ 0 → status ≠ -1 →
     ∀ binary,
       ssh_execute rt enc ssh cmd input env check binary s
       = (Raise (ProcessExecutionError (Some (ssh_masked rt out))
                   (Some (ssh_masked rt err)) (Some status)
                   (Some (mask_password rt (native rt cmd))) None),
          ssh_ran rt cmd status w' s))
  ∧ (check = false ∨ status = 0 ∨ status = -1 →
     ssh_execute rt enc ssh cmd input env check false s
     = (Return (ssh_masked rt out, ssh_masked rt err),
        ssh_ran rt cmd status w' s)).
Proof.
  intros He Hi Hr. split.
  - intros -> H0 H1 binary. rewrite (ssh_execute_run _ _ _ _ _ _ _ _ _ _ He Hi Hr).
    apply Z.eqb_neq in H0, H1. by rewrite H0, H1.
  - intros Hc. rewrite (ssh_execute_run _ _ _ _ _ _ _ _ _ _ He Hi Hr).
    destruct Hc as [-> | [-> | ->]]; cbn; [|by rewrite andb_false_r|done].
    by rewrite andb_false_r.
Qed.

(** X13: with [binary=True] on Python 3 a successful [ssh_execute] returns
    [os.fsencode] of the masked text.  When [fsencode] inverts [fsdecode]
    on the output and [mask_password] finds nothing to mask in it, the bytes
    returned are the bytes the command wrote. *)
Theorem ssh_execute_binary_round_trip cmd input env check s out err status w' :
  env_truthy env = false →
  input_truthy input = false →
  ssh_runs ssh cmd s out err status w' →
  check = false ∨ status = 0 ∨ status = -1 →
  PY3 rt = true →
  ssh_execute rt enc ssh cmd input env check true s
  = (Return (Bytes (fsencode enc (payload (ssh_masked rt out))),
             Bytes (fsencode enc (payload (ssh_masked rt err)))),
     ssh_ran rt cmd status w' s)
  ∧ (fsencode enc (fsdecode rt out) = out →
     fsencode enc (fsdecode rt err) = err →
     mask_password rt (Text (fsdecode rt out)) = Text (fsdecode rt out) →
     mask_password rt (Text (fsdecode rt err)) = Text (fsdecode rt err) →
     ssh_execute rt enc ssh cmd input env check true s
     = (Return (Bytes out, Bytes err), ssh_ran rt cmd status w' s)).
Proof.
  intros He Hi Hr Hc Hpy.
  assert (H : ssh_execute rt enc ssh cmd input env check true s
    = (Return (Bytes (fsencode enc (payload (ssh_masked rt out))),
               Bytes (fsencode enc (payload (ssh_masked rt err)))),
       ssh_ran rt cmd status w' s)).
  { rewrite (ssh_execute_run _ _ _ _ _ _ _ _ _ _ He Hi Hr), Hpy. cbn.
    destruct Hc as [-> | [-> | ->]]; cbn; [|by rewrite andb_false_r|done].
    by rewrite andb_false_r. }
  split; [done|]. intros Ho Hee Hmo Hme. rewrite H. unfold ssh_masked.
  rewrite Hpy, Hmo, Hme. cbn. by rewrite Ho, Hee.
Qed.

End with_ssh.

(** *** The theorems on the example host *)

Import example_host.

(** Evaluates [execute] on a concrete call and names the result. *)
Ltac run_execute rt c kw s He :=
  let r := eval vm_compute in (execute rt c kw s) in
  assert (He : execute rt c kw s = r) by (vm_compute; reflexivity).


Lemma execute_sleeps_are_bounded_witness :
  ∃ evs,
    trace (execute py3 ["false"] (kwargs [attempts_is 3]) boot).2 = evs
    ∧ Forall bounded_sleep evs.
Proof.
  run_prelude py3 ["false"] (kwargs [attempts_is 3]) Hp.
  run_execute py3 ["false"] (kwargs [attempts_is 3]) boot He.
  destruct (execute_sleeps_are_bounded py3 _ _ _ _ _ _
              ltac:(intros w; cbn; lia) Hp He) as (evs & Ht & Hall).
  exists evs. split; [rewrite He; exact Ht | exact Hall].
Defined.

Lemma execute_error_details_by_policy_witness :
  (∃ evs,
     trace (execute py3 ["false"]
              (kwargs [attempts_is 3; log_errors_is LOG_FINAL_ERROR]) boot).2 = evs
     ∧ weigh detail_weight evs = 1%nat)
  ∧ (∃ evs,
       trace (execute py3 ["flaky"]
                (kwargs [attempts_is 5; log_errors_is LOG_ALL_ERRORS]) boot).2 = evs
       ∧ weigh detail_weight evs = 2%nat).
Proof.
  split.
  - run_prelude py3 ["false"]
      (kwargs [attempts_is 3; log_errors_is LOG_FINAL_ERROR]) Hp.
    run_execute py3 ["false"]
      (kwargs [attempts_is 3; log_errors_is LOG_FINAL_ERROR]) boot He.
    destruct (execute_error_details_by_policy py3 _ _ _ 3%nat boot Hp eq_refl
                ltac:(lia)) as [H _].
    edestruct H as (evs & Ht & Hw); [|exact He|].
    { intros i Hi. destruct i as [|[|[|i]]]; [run_fails | run_fails | run_fails | lia]. }
    exists evs. split; [rewrite He; exact Ht | exact Hw].
  - run_prelude py3 ["flaky"]
      (kwargs [attempts_is 5; log_errors_is LOG_ALL_ERRORS]) Hp.
    destruct (execute_error_details_by_policy py3 _ _ _ 5%nat boot Hp eq_refl
                ltac:(lia)) as [_ H].
    edestruct (H 2%nat) as (He & evs & Ht & Hw); [lia | | run_equation |].
    { intros i Hi. destruct i as [|[|i]]; [run_fails | run_fails | lia]. }
    exists evs. split; [rewrite He; exact Ht | exact Hw].
Defined.

Lemma execute_sleeps_between_attempts_witness :
  (∃ evs,
     trace (execute py3 ["false"] (kwargs [attempts_is 3]) boot).2 = evs
     ∧ weigh sleep_weight evs = 5%nat)
  ∧ (∃ evs,
       trace (execute py3 ["flaky"]
                (kwargs [attempts_is 5; delay_on_retry_is false]) boot).2 = evs
       ∧ weigh sleep_weight evs = 3%nat).
Proof.
  split.
  - run_prelude py3 ["false"] (kwargs [attempts_is 3]) Hp.
    run_execute py3 ["false"] (kwargs [attempts_is 3]) boot He.
    destruct (execute_sleeps_between_attempts py3 _ _ _ 3%nat boot Hp eq_refl
                ltac:(lia)) as [H _].
    edestruct H as (evs & Ht & Hw); [|exact He|].
    { intros i Hi. destruct i as [|[|[|i]]]; [run_fails | run_fails | run_fails | lia]. }
    exists evs. split; [rewrite He; exact Ht | exact Hw].
  - run_prelude py3 ["flaky"] (kwargs [attempts_is 5; delay_on_retry_is false]) Hp.
    destruct (execute_sleeps_between_attempts py3 _ _ _ 5%nat boot Hp eq_refl
                ltac:(lia)) as [_ H].
    edestruct (H 2%nat) as (He & evs & Ht & Hw); [lia | | run_equation |].
    { intros i Hi. destruct i as [|[|i]]; [run_fails | run_fails | lia]. }
    exists evs. split; [rewrite He; exact Ht | exact Hw].
Defined.

Lemma execute_without_attempts_witness :
  execute py3 ["true"] (kwargs [attempts_is 0]) boot = (Return None, boot)
  ∧ trycmd py3 ["true"] None (kwargs [attempts_is 0]) boot
    = (Raise (OtherException "TypeError" "'NoneType' object is not iterable"),
       boot).
Proof.
  run_prelude py3 ["true"] (kwargs [attempts_is 0]) Hp.
  exact (execute_without_attempts py3 _ None _ _ boot Hp ltac:(cbn; lia)).
Defined.

Lemma run_as_root_not_needed_witness :
  ∃ l, prelude py3_root ["true"] (kwargs [run_as_root_is true]) = inr l
       ∧ cmd l = ["true"] ∧ shell l = false.
Proof.
  exact (run_as_root_not_needed py3_root ["true"] (kwargs [run_as_root_is true])
           eq_refl (or_introl eq_refl) (or_intror (or_introl eq_refl))).
Defined.

Lemma run_as_root_helper_errors_witness :
  execute py3 []
    (kwargs [run_as_root_is true; root_helper_is "sudo"; shell_is true]) boot
  = (Raise (OtherException "IndexError" "tuple index out of range"), boot)
  ∧ execute py3_quoting ["true"]
      (kwargs [run_as_root_is true; root_helper_is "sudo 'x"]) boot
    = (Raise (OtherException "ValueError" "No closing quotation"), boot).
Proof.
  split.
  - destruct (run_as_root_helper_errors py3 []
                (kwargs [run_as_root_is true; root_helper_is "sudo"; shell_is true])
                boot 1000 eq_refl (or_introl eq_refl) eq_refl eq_refl
                ltac:(discriminate) ltac:(discriminate)) as [H _].
    exact (H eq_refl eq_refl).
  - destruct (run_as_root_helper_errors py3_quoting ["true"]
                (kwargs [run_as_root_is true; root_helper_is "sudo 'x"])
                boot 1000 eq_refl (or_introl eq_refl) eq_refl eq_refl
                ltac:(discriminate) ltac:(discriminate)) as [_ H].
    exact (H eq_refl _ eq_refl).
Defined.

Lemma attempt_stops_at_first_error_witness :
  (∃ l, prelude py3 ["nosuchprogram"] no_kwargs = inr l
        ∧ attempt py3 l boot
          = (Raise (OSError (Some 2)),
             {| world := 0%nat;
                trace := [Log (loglevel l) (Running (sanitized_cmd l));
                          Spawn (spawn_args py3 l)] |}))
  ∧ (∃ l, prelude py3 ["true"] (kwargs [on_execute_is raising_callback]) = inr l
          ∧ attempt py3 l boot
            = (Raise (OtherException "ValueError" "boom"),
               {| world := 1%nat;
                  trace := [Log (loglevel l) (Running (sanitized_cmd l));
                            Spawn (spawn_args py3 l); OnExecute] |})).
Proof.
  split.
  - run_prelude py3 ["nosuchprogram"] no_kwargs Hp.
    eexists. split; [exact Hp|].
    match type of Hp with
    | _ = inr ?l =>
        destruct (attempt_stops_at_first_error py3 l boot) as (H & _ & _)
    end.
    exact (H (OSError (Some 2)) 0%nat eq_refl).
  - run_prelude py3 ["true"] (kwargs [on_execute_is raising_callback]) Hp.
    eexists. split; [exact Hp|].
    match type of Hp with
    | _ = inr ?l =>
        destruct (attempt_stops_at_first_error py3 l boot) as (_ & H & _)
    end.
    exact (H ("", "", 0) 1%nat raising_callback
             (OtherException "ValueError" "boom") 1%nat eq_refl eq_refl eq_refl).
Defined.

Lemma trycmd_propagates_other_errors_witness :
  ∃ s', trycmd py3 ["nosuchprogram"] (Some true) no_kwargs boot
        = (Raise (OSError (Some 2)), s').
Proof.
  eexists.
  eapply (trycmd_propagates_other_errors py3 ["nosuchprogram"] (Some true)
            no_kwargs boot); [run_equation | reflexivity].
Defined.

Lemma ssh_execute_rejects_env_and_input_witness :
  ssh_execute py3 host_encoders ssh_host "true" None (Some [("HOME", "/")])
    true false ssh_boot
  = (Raise (InvalidArgumentError "Environment not supported over SSH"),
     ssh_rejected py3 "true" ssh_boot)
  ∧ ssh_execute py3 host_encoders ssh_host "true" (Some (Text "yes")) (Some [])
      true false ssh_boot
    = (Raise (InvalidArgumentError "process_input not supported over SSH"),
       ssh_rejected py3 "true" ssh_boot).
Proof.
  split.
  - destruct (ssh_execute_rejects_env_and_input py3 host_encoders ssh_host
                "true" None (Some [("HOME", "/")]) true false ssh_boot) as [H _].
    exact (H eq_refl).
  - destruct (ssh_execute_rejects_env_and_input py3 host_encoders ssh_host
                "true" (Some (Text "yes")) (Some []) true false ssh_boot)
      as [_ H].
    exact (H eq_refl eq_refl).
Defined.

Lemma ssh_execute_checks_exit_status_witness :
  ssh_execute py3 host_encoders ssh_host "ls password=secret" None None true
    false ssh_boot
  = (Raise (ProcessExecutionError (Some (Text ""))
              (Some (Text ("ls: cannot access password=******" +:+ newline)))
              (Some 2) (Some (Text "ls password=******")) None),
     ssh_ran py3 "ls password=secret" 2 1%nat ssh_boot)
  ∧ ssh_execute py3 host_encoders ssh_host "ls password=secret" None None false
      false ssh_boot
    = (Return (Text "",
               Text ("ls: cannot access password=******" +:+ newline)),
       ssh_ran py3 "ls password=secret" 2 1%nat ssh_boot).
Proof.
  assert (Hr : ssh_runs ssh_host "ls password=secret" ssh_boot ""
                 ("ls: cannot access password=secret" +:+ newline) 2 1%nat)
    by (do 5 eexists; repeat split; reflexivity).
  split.
  - destruct (ssh_execute_checks_exit_status py3 host_encoders ssh_host
                "ls password=secret" None None true ssh_boot _ _ _ _
                eq_refl eq_refl Hr) as [H _].
    exact (H eq_refl ltac:(discriminate) ltac:(discriminate) false).
  - destruct (ssh_execute_checks_exit_status py3 host_encoders ssh_host
                "ls password=secret" None None false ssh_boot _ _ _ _
                eq_refl eq_refl Hr) as [_ H].
    exact (H (or_introl eq_refl)).
Defined.

Lemma ssh_execute_binary_round_trip_witness :
  ssh_execute py3 host_encoders ssh_host "echo hello" None None true true
    ssh_boot
  = (Return (Bytes ("hello" +:+ newline), Bytes ""),
     ssh_ran py3 "echo hello" 0 1%nat ssh_boot).
Proof.
  assert (Hr : ssh_runs ssh_host "echo hello" ssh_boot ("hello" +:+ newline) ""
                 0 1%nat)
    by (do 5 eexists; repeat split; reflexivity).
  destruct (ssh_execute_binary_round_trip py3 host_encoders ssh_host
              "echo hello" None None true ssh_boot _ _ _ _
              eq_refl eq_refl Hr (or_intror (or_introl eq_refl)) eq_refl)
    as [_ H].
  exact (H eq_refl eq_refl eq_refl eq_refl).
Defined.

End processutils_more.
